(** * data_importer.py: the TXT -> SQLite ingestion pipeline

    A shallow embedding of [parse_and_import_data] and of the library
    calls it is built from ([open(..., errors='ignore')], [re.findall],
    [glob.glob], [sqlite3]), followed by the properties of the
    pipeline. *)

From Stdlib Require Import String Ascii List ZArith NArith Lia Bool.
Import ListNotations.

Set Implicit Arguments.

(** * The program *)

(** ** Text and bytes *)

(** A Python [str] is a sequence of Unicode code points, a [bytes] a
    sequence of octets. *)
Definition char := N.
Definition text := list char.
Definition byte := N.

Definition text_of_string (s : string) : text :=
  map N_of_ascii (list_ascii_of_string s).

Definition HYPHEN : char := 45%N.
Definition CR : char := 13%N.
Definition LF : char := 10%N.

(** ** Reading a file: [open(p, 'r', encoding='utf-8', errors='ignore').read()] *)

Module Utf8.

Local Open Scope N_scope.

Definition is_continuation (b : byte) : bool := (0x80 <=? b) && (b <=? 0xBF).

(** The decoder, with the [ignore] error handler: an invalid start byte
    is skipped; after an invalid continuation byte the bytes before it
    are skipped and decoding resumes at the offending byte; a sequence
    cut short by the end of the data is skipped. *)
Fixpoint decode_ignore (s : list byte) : text :=
  match s with
  | [] => []
  | b1 :: s1 =>
    if b1 <? 0x80 then b1 :: decode_ignore s1
    else if b1 <? 0xC2 then decode_ignore s1
    else if b1 <? 0xE0 then
      match s1 with
      | [] => []
      | b2 :: s2 =>
        if is_continuation b2
        then (b1 * 64 + b2 - (0xC0 * 64 + 0x80)) :: decode_ignore s2
        else decode_ignore s1
      end
    else if b1 <? 0xF0 then
      match s1 with
      | [] => []
      | b2 :: s2 =>
        if negb (is_continuation b2)
           || (if b2 <? 0xA0 then b1 =? 0xE0 else b1 =? 0xED)
        then decode_ignore s1
        else
          match s2 with
          | [] => []
          | b3 :: s3 =>
            if is_continuation b3
            then (b1 * 4096 + b2 * 64 + b3
                  - (0xE0 * 4096 + 0x80 * 64 + 0x80)) :: decode_ignore s3
            else decode_ignore s2
          end
      end
    else if b1 <? 0xF5 then
      match s1 with
      | [] => []
      | b2 :: s2 =>
        if negb (is_continuation b2)
           || (if b2 <? 0x90 then b1 =? 0xF0 else b1 =? 0xF4)
        then decode_ignore s1
        else
          match s2 with
          | [] => []
          | b3 :: s3 =>
            if is_continuation b3 then
              match s3 with
              | [] => []
              | b4 :: s4 =>
                if is_continuation b4
                then (b1 * 262144 + b2 * 4096 + b3 * 64 + b4
                      - (0xF0 * 262144 + 0x80 * 4096 + 0x80 * 64 + 0x80))
                     :: decode_ignore s4
                else decode_ignore s3
              end
            else decode_ignore s2
          end
      end
    else decode_ignore s1
  end.

End Utf8.

(** Text mode with the default [newline=None]: on input, "\r\n" and a
    lone "\r" are translated to "\n". *)
Fixpoint translate_newlines (s : text) : text :=
  match s with
  | [] => []
  | c :: s' =>
    if (c =? CR)%N then
      LF :: match s' with
            | [] => []
            | d :: s'' =>
              if (d =? LF)%N then translate_newlines s'' else translate_newlines s'
            end
    else c :: translate_newlines s'
  end.

Definition read_text (raw : list byte) : text :=
  translate_newlines (Utf8.decode_ignore raw).

(** ** The extractor: [re.findall(r'(\d+)----(\d+)', content)] *)

Section Extractor.

(** [\d] in a [str] pattern is a Unicode decimal digit.  Below U+0080
    these are the ten ASCII digits; the rest of the table belongs to the
    interpreter's Unicode database and is a parameter here. *)
Variable unicode_decimal : char -> bool.

Definition is_digit (c : char) : bool :=
  if (c <? 128)%N then (48 <=? c)%N && (c <=? 57)%N else unicode_decimal c.

(** The literal [----]. *)
Definition lit_hyphens (s : text) : option text :=
  match s with
  | h1 :: h2 :: h3 :: h4 :: r =>
    if (h1 =? HYPHEN)%N && (h2 =? HYPHEN)%N && (h3 =? HYPHEN)%N && (h4 =? HYPHEN)%N
    then Some r else None
  | _ => None
  end.

(** A greedy [\d+] at the end of the pattern: the longest run of digits
    and what follows it. *)
Fixpoint span_digits (s : text) : text * text :=
  match s with
  | c :: s' =>
    if is_digit c then let '(d, r) := span_digits s' in (c :: d, r)
    else ([], s)
  | [] => ([], [])
  end.

(** [----(\d+)] at [s]: the second group and the text after the match. *)
Definition match_tail (s : text) : option (text * text) :=
  match lit_hyphens s with
  | Some r =>
    match span_digits r with
    | ([], _) => None
    | (b, rest) => Some (b, rest)
    end
  | None => None
  end.

(** [(\d+)----(\d+)] at [s], by backtracking: the first group takes one
    digit, then tries to take more before it tries the rest of the
    pattern.  [seen] holds the digits already taken, last one first.
    The result is both groups and the text after the match. *)
Fixpoint match_from (seen : text) (s : text) : option (text * text * text) :=
  match s with
  | [] => None
  | c :: s' =>
    if is_digit c then
      match match_from (c :: seen) s' with
      | Some m => Some m
      | None =>
        match match_tail s' with
        | Some (b, rest) => Some (rev (c :: seen), b, rest)
        | None => None
        end
      end
    else None
  end.

Definition match_at (s : text) : option (text * text * text) := match_from [] s.

(** The scan of [findall]: try a match at the current position; after a
    match go on from its end, otherwise move one character to the right.
    Each round consumes at least one character, so [length s] rounds
    (plus the one at the end of the text) are enough. *)
Fixpoint scan (rounds : nat) (s : text) : list (text * text) :=
  match rounds with
  | O => []
  | S n =>
    match match_at s with
    | Some (a, b, rest) => (a, b) :: scan n rest
    | None =>
      match s with
      | [] => []
      | _ :: s' => scan n s'
      end
    end
  end.

Definition findall (content : text) : list (text * text) :=
  scan (S (length content)) content.

End Extractor.

Definition ascii_only : char -> bool := fun _ => false.

(** ** The store: the [user_mapping] table of uid_phone_map.db *)

(** A row, in column order: [(uid, phone_number)]. *)
Definition record := (text * text)%type.
Definition uid (r : record) : text := fst r.
Definition phone_number (r : record) : text := snd r.

Definition text_eq_dec : forall a b : text, {a = b} + {a <> b} :=
  list_eq_dec N.eq_dec.

Definition same_uid (u : text) (r : record) : bool :=
  if text_eq_dec (uid r) u then true else false.

(** The table: its rows in rowid order, and whether [idx_phone_number]
    exists. *)
Record table := { rows : list record; indexed : bool }.

(** The database file: [None] while [user_mapping] does not exist. *)
Definition database := option table.

(** [CREATE TABLE IF NOT EXISTS user_mapping (...)] *)
Definition create_table (d : database) : option database :=
  match d with
  | None => Some (Some {| rows := []; indexed := false |})
  | Some t => Some (Some t)
  end.

(** [CREATE INDEX IF NOT EXISTS idx_phone_number ON user_mapping (...)] *)
Definition create_index (d : database) : option database :=
  match d with
  | None => None
  | Some t => Some (Some {| rows := rows t; indexed := true |})
  end.

(** [INSERT OR REPLACE INTO user_mapping (uid, phone_number) VALUES (?, ?)]
    for one parameter tuple: the row that holds the primary key, if any,
    is deleted, and the new row gets a fresh rowid. *)
Definition insert_or_replace (rs : list record) (r : record) : list record :=
  filter (fun r' => negb (same_uid (uid r) r')) rs ++ [r].

Definition upsert_all (rs : list record) (batch : list record) : list record :=
  fold_left insert_or_replace batch rs.

Definition insert_many (batch : list record) (d : database) : option database :=
  match d with
  | None => None
  | Some t => Some (Some {| rows := upsert_all (rows t) batch; indexed := indexed t |})
  end.

(** ** The process: exceptions, output, connection *)

Inductive exn :=
| SqliteError
| FileNotFoundError
| OtherOSError
| SystemExit (code : Z).

Inductive message :=
| MsgConnecting
| MsgSchemaCreated
| MsgNoFilesInDataDir
| MsgNoFilesInCwd
| MsgProcessing (basename : text)
| MsgImportedSoFar (n : Z)
| MsgImportComplete (n : Z)
| MsgSqliteError
| MsgDirectoryNotFound.

Inductive store_op :=
| OpConnect
| OpCreateTable
| OpCreateIndex
| OpExecuteMany (batch : list record)
| OpCommit.

(** A call into the storage engine, and whether it raised. *)
Record op_event := { op : store_op; raised : bool }.

(** The variable [conn]: [None], an open connection with its pending
    (uncommitted) transaction if one is open, or a closed connection. *)
Inductive conn_var :=
| NoConnection
| Connected (txn : option database)
| Closed.

Record world := {
  disk : database;
  conn : conn_var;
  stdout : list message;
  oplog : list op_event
}.

Definition initial_world (d : database) : world :=
  {| disk := d; conn := NoConnection; stdout := []; oplog := [] |}.

Inductive result (A : Type) :=
| Ok (a : A)
| Raise (e : exn).
Arguments Ok {A} a.
Arguments Raise {A} e.

Definition M (A : Type) : Type := world -> result A * world.

Definition ret {A} (a : A) : M A := fun w => (Ok a, w).
Definition raise {A} (e : exn) : M A := fun w => (Raise e, w).
Definition bind {A B} (m : M A) (k : A -> M B) : M B :=
  fun w => match m w with
           | (Ok a, w') => k a w'
           | (Raise e, w') => (Raise e, w')
           end.

Declare Scope imp_scope.
Delimit Scope imp_scope with imp.
Notation "x <- m ;; k" := (bind m (fun x => k))
  (at level 61, m at next level, right associativity) : imp_scope.
Notation "m ;; k" := (bind m (fun _ => k))
  (at level 61, right associativity) : imp_scope.
Local Open Scope imp_scope.

(** [try: body except ...: handler] *)
Definition try_except {A} (body : M A) (handler : exn -> M A) : M A :=
  fun w => match body w with
           | (Ok a, w') => (Ok a, w')
           | (Raise e, w') => handler e w'
           end.

(** [try: body finally: cleanup] *)
Definition try_finally {A} (body : M A) (cleanup : M unit) : M A :=
  fun w => match body w with
           | (r, w') =>
             match cleanup w' with
             | (Ok _, w'') => (r, w'')
             | (Raise e, w'') => (Raise e, w'')
             end
           end.

Fixpoint for_each {A S} (body : S -> A -> M S) (l : list A) (s : S) : M S :=
  match l with
  | [] => ret s
  | x :: l' => s' <- body s x ;; for_each body l' s'
  end.

Definition print (m : message) : M unit :=
  fun w => (Ok tt, {| disk := disk w; conn := conn w;
                      stdout := stdout w ++ [m]; oplog := oplog w |}).

(** [sys.exit(code)] *)
Definition sys_exit {A} (code : Z) : M A := raise (SystemExit code).

(** The status the interpreter exits with: 0 when the script runs to its
    end, the argument of [sys.exit], 1 after a traceback. *)
Definition exit_status {A} (r : result A) : Z :=
  match r with
  | Ok _ => 0
  | Raise (SystemExit code) => code
  | Raise _ => 1
  end.

(** ** The files *)

Inductive file_state :=
| Readable (raw : list byte)
| Dangling      (* [open] raises FileNotFoundError *)
| Unreadable.   (* [open] or [read] raises another OSError *)

Record entry := { name : text; state : file_state }.

(** A directory: [None] when it does not exist. *)
Definition directory := option (list entry).

Record filesystem := { data_dir : directory; cwd : directory }.

Fixpoint starts_with (p s : text) : bool :=
  match p, s with
  | [], _ => true
  | c :: p', d :: s' => (c =? d)%N && starts_with p' s'
  | _ :: _, [] => false
  end.

(** [fnmatch(n, 'qb*.txt')] *)
Definition fnmatch_qb_txt (n : text) : bool :=
  starts_with (text_of_string "qb") n
  && starts_with (rev (text_of_string ".txt")) (rev (skipn 2 n)).

(** [glob.glob(os.path.join(dir, 'qb*.txt'))]: the matching entries in
    listing order; nothing when the directory cannot be listed. *)
Definition glob (d : directory) : list entry :=
  match d with
  | None => []
  | Some entries => filter (fun e => fnmatch_qb_txt (name e)) entries
  end.

(** ** The script *)

Definition BATCH_SIZE : Z := 50000.

Section Importer.

Variable unicode_decimal : char -> bool.

(** The directory of the data files and the working directory. *)
Variable fs : filesystem.

(** The storage engine's failures (disk full, locked file, corruption)
    come from outside: [faults n] tells whether the [n]-th call into the
    engine raises, and for an [executemany] how many parameter tuples
    were executed before it did.  A database file that cannot be
    opened is a failure of the first call; [engine], below, gives the
    failures that the file system forces. *)
Variable faults : nat -> option nat.

Definition log_op (o : store_op) (r : bool) (d : database) (c : conn_var) (w : world) : world :=
  {| disk := d; conn := c; stdout := stdout w;
     oplog := oplog w ++ [{| op := o; raised := r |}] |}.

(** [sqlite3.connect(DATABASE_FILE)] *)
Definition connect : M unit :=
  fun w =>
    match faults (length (oplog w)) with
    | Some _ => (Raise SqliteError, log_op OpConnect true (disk w) (conn w) w)
    | None => (Ok tt, log_op OpConnect false (disk w) (Connected None) w)
    end.

(** A statement on the connection.  [run] is its effect on the database
    it sees ([None]: the engine rejects it), [partial k] the effect left
    behind when the statement is interrupted. [begins] tells whether the
    statement opens a transaction when none is open; without one it
    takes effect on disk at once. *)
Definition statement (o : store_op) (begins : bool)
    (run : database -> option database)
    (partial : nat -> database -> database) : M unit :=
  fun w =>
    match conn w with
    | Connected txn =>
      let seen := match txn with Some v => v | None => disk w end in
      let store (v : database) (r : bool) :=
        match txn with
        | Some _ => log_op o r (disk w) (Connected (Some v)) w
        | None =>
          if begins then log_op o r (disk w) (Connected (Some v)) w
          else log_op o r v (Connected None) w
        end in
      match faults (length (oplog w)) with
      | Some k => (Raise SqliteError, store (partial k seen) true)
      | None =>
        match run seen with
        | Some v => (Ok tt, store v false)
        | None => (Raise SqliteError, store seen true)
        end
      end
    | _ => (Raise SqliteError, log_op o true (disk w) (conn w) w)
    end.

Definition execute_create_table : M unit :=
  statement OpCreateTable false create_table (fun _ d => d).

Definition execute_create_index : M unit :=
  statement OpCreateIndex false create_index (fun _ d => d).

(** [conn.executemany("INSERT OR REPLACE ...", batch)] *)
Definition executemany (batch : list record) : M unit :=
  statement (OpExecuteMany batch) true (insert_many batch)
    (fun k d => match insert_many (firstn k batch) d with Some v => v | None => d end).

(** [conn.commit()] *)
Definition commit : M unit :=
  fun w =>
    match conn w with
    | Connected txn =>
      match faults (length (oplog w)) with
      | Some _ => (Raise SqliteError, log_op OpCommit true (disk w) (conn w) w)
      | None =>
        match txn with
        | Some v => (Ok tt, log_op OpCommit false v (Connected None) w)
        | None => (Ok tt, log_op OpCommit false (disk w) (Connected None) w)
        end
      end
    | _ => (Raise SqliteError, log_op OpCommit true (disk w) (conn w) w)
    end.

(** [if conn: conn.close()]: a pending transaction is dropped. *)
Definition close_if_connected : M unit :=
  fun w =>
    match conn w with
    | NoConnection => (Ok tt, w)
    | _ => (Ok tt, {| disk := disk w; conn := Closed;
                      stdout := stdout w; oplog := oplog w |})
    end.

Definition setup_database : M unit :=
  execute_create_table ;;
  execute_create_index ;;
  commit ;;
  print MsgSchemaCreated.

(** [with open(file_path, 'r', encoding='utf-8', errors='ignore') as f:
       content = f.read()] *)
Definition open_and_read (e : entry) : M text :=
  match state e with
  | Readable raw => ret (read_text raw)
  | Dangling => raise FileNotFoundError
  | Unreadable => raise OtherOSError
  end.

(** The loop variables. *)
Record loop_vars := { total_records : Z; batch_data : list record }.

(** [batch_data.append((uid, phone)); total_records += 1] *)
Definition append_record (st : loop_vars) (m : text * text) : loop_vars :=
  let '(phone, uid) := m in
  {| total_records := total_records st + 1;
     batch_data := batch_data st ++ [(uid, phone)] |}.

(** [if len(batch_data) >= batch_size: ...] *)
Definition flush_if_full (batch_size : Z) (st : loop_vars) : M loop_vars :=
  if (Z.of_nat (length (batch_data st)) >=? batch_size)%Z then
    executemany (batch_data st) ;;
    commit ;;
    print (MsgImportedSoFar (total_records st)) ;;
    ret {| total_records := total_records st; batch_data := [] |}
  else ret st.

Definition process_record (batch_size : Z) (st : loop_vars) (m : text * text) : M loop_vars :=
  flush_if_full batch_size (append_record st m).

Definition process_file (batch_size : Z) (st : loop_vars) (e : entry) : M loop_vars :=
  print (MsgProcessing (name e)) ;;
  content <- open_and_read e ;;
  for_each (process_record batch_size) (findall unicode_decimal content) st.

(** Lines 46 to 74: the loop over the files, the last flush and the
    report. *)
Definition import_files (batch_size : Z) (all_files : list entry) : M unit :=
  st <- for_each (process_file batch_size) all_files
          {| total_records := 0; batch_data := [] |} ;;
  match batch_data st with
  | [] => ret tt
  | _ :: _ => executemany (batch_data st) ;; commit
  end ;;
  print (MsgImportComplete (total_records st)).

(** The body of the [try]. *)
Definition import_body (batch_size : Z) : M unit :=
  connect ;;
  setup_database ;;
  match glob (data_dir fs) with
  | [] =>
    print MsgNoFilesInDataDir ;;
    match glob (cwd fs) with
    | [] => print MsgNoFilesInCwd ;; ret tt
    | all_files => import_files batch_size all_files
    end
  | all_files => import_files batch_size all_files
  end.

Definition handlers (e : exn) : M unit :=
  match e with
  | SqliteError => print MsgSqliteError ;; sys_exit 1
  | FileNotFoundError => print MsgDirectoryNotFound ;; sys_exit 1
  | _ => raise e
  end.

Definition parse_and_import_data_with (batch_size : Z) : M unit :=
  print MsgConnecting ;;
  try_finally (try_except (import_body batch_size) handlers) close_if_connected.

Definition parse_and_import_data : M unit :=
  parse_and_import_data_with BATCH_SIZE.

End Importer.

Definition no_faults : nat -> option nat := fun _ => None.

Definition file (n : string) (lines : list string) : entry :=
  {| name := text_of_string n;
     state := Readable (concat (map (fun l => text_of_string l ++ [LF]) lines)) |}.

(** ** The extractor, as the specification words it *)

Unset Implicit Arguments.

Section ExtractorSpec.

Variable unicode_decimal : char -> bool.

Definition HYPHENS4 : text := [HYPHEN; HYPHEN; HYPHEN; HYPHEN].

(** One or more decimal digits. *)
Definition digits (a : text) : Prop :=
  a <> [] /\ Forall (fun c => is_digit unicode_decimal c = true) a.

(** The pattern matches a prefix of [s]: digits, four hyphens, digits. *)
Definition occurrence (s a b rest : text) : Prop :=
  s = a ++ HYPHENS4 ++ b ++ rest /\ digits a /\ digits b.

Definition matches_here (s : text) : Prop :=
  exists a b rest, occurrence s a b rest.

(** The second group is greedy: no digit follows the match. *)
Definition no_digit_ahead (rest : text) : Prop :=
  match rest with
  | [] => True
  | c :: _ => is_digit unicode_decimal c = false
  end.

(** The non-overlapping matches of a text, from left to right: where no
    match starts the scan moves one character on, and after a match it
    goes on behind it. *)
Inductive nonoverlapping_matches : text -> list (text * text) -> Prop :=
| nm_end : nonoverlapping_matches [] []
| nm_skip c s l :
    ~ matches_here (c :: s) ->
    nonoverlapping_matches s l ->
    nonoverlapping_matches (c :: s) l
| nm_match s a b rest l :
    occurrence s a b rest ->
    no_digit_ahead rest ->
    nonoverlapping_matches rest l ->
    nonoverlapping_matches s ((a, b) :: l).

End ExtractorSpec.

(** ** Upserts: the algebra of [INSERT OR REPLACE] *)

Definition has_uid (u : text) (p : list record) : bool := existsb (same_uid u) p.

(** The records of a sequence that no later record of the same uid
    overwrites. *)
Fixpoint last_writes (p : list record) : list record :=
  match p with
  | [] => []
  | r :: p' => if has_uid (uid r) p' then last_writes p' else r :: last_writes p'
  end.

Definition rows_of (d : database) : list record :=
  match d with
  | None => []
  | Some t => rows t
  end.

(** ** Reasoning about the script *)

(** A triple for a piece of the script: from a world in [P], it ends in
    [Q] when it returns and in [E] when it raises. *)
Definition hoare {A} (P : world -> Prop) (m : M A)
    (Q : A -> world -> Prop) (E : exn -> world -> Prop) : Prop :=
  forall w, P w ->
    match m w with
    | (Ok a, w') => Q a w'
    | (Raise e, w') => E e w'
    end.

(** The records that were passed to [executemany], in order. *)
Definition batch_of (e : op_event) : list record :=
  match op e with
  | OpExecuteMany b => b
  | _ => []
  end.

Definition sent (log : list op_event) : list record := concat (map batch_of log).

(** The files the script works on: those of the data directory, or
    those of the working directory when there are none. *)
Definition selected (fs : filesystem) : list entry :=
  match glob (data_dir fs) with
  | [] => glob (cwd fs)
  | all_files => all_files
  end.

(** The contents of the files up to the first one that cannot be read,
    and the exception this one raises. *)
Fixpoint contents_until_error (files : list entry) : list text * option exn :=
  match files with
  | [] => ([], None)
  | e :: files' =>
    match state e with
    | Readable raw =>
      let '(cs, x) := contents_until_error files' in (read_text raw :: cs, x)
    | Dangling => ([], Some FileNotFoundError)
    | Unreadable => ([], Some OtherOSError)
    end
  end.

Definition all_readable (fs : filesystem) : Prop :=
  snd (contents_until_error (selected fs)) = None.

(** The matches of a list of contents, file after file, each as the
    record [(right, left)]. *)
Definition records_of (unicode_decimal : char -> bool) (cs : list text) : list record :=
  map (fun m => (snd m, fst m)) (concat (map (findall unicode_decimal) cs)).

Definition all_records (unicode_decimal : char -> bool) (fs : filesystem) : list record :=
  records_of unicode_decimal (fst (contents_until_error (selected fs))).

(** How many of the first [n] records have been flushed when the
    [n]-th has been processed. *)
Definition committed_count (batch_size : Z) (n : nat) : nat :=
  if (batch_size <=? 0)%Z then n else n - n mod (Z.to_nat batch_size).

(** The database file after a run of the script in which the storage
    engine does not fail. *)
Definition ingest (unicode_decimal : char -> bool) (fs : filesystem)
    (batch_size : Z) (d : database) : database :=
  disk (snd (parse_and_import_data_with unicode_decimal fs no_faults batch_size
               (initial_world d))).

(** Upserting a sequence of records one at a time, no batches. *)
Fixpoint unbatched_upsert (rs : list record) (recs : list record) : list record :=
  match recs with
  | [] => rs
  | r :: recs' => unbatched_upsert (insert_or_replace rs r) recs'
  end.

(** ** Invariants of the run *)

Section LoopInvariant.

Variable batch_size : Z.

(** The rows of the table when the connection was opened. *)
Variable base : list record.

(** Between two records: of the records [recs] processed so far, the
    first [committed_count] are in the table, the others wait in the
    buffer, and no transaction is open. *)
Definition between_records (recs : list record) (st : loop_vars) (w : world) : Prop :=
  let k := committed_count batch_size (length recs) in
  conn w = Connected None /\
  disk w = Some {| rows := upsert_all base (firstn k recs); indexed := true |} /\
  batch_data st = skipn k recs /\
  total_records st = Z.of_nat (length recs) /\
  sent (oplog w) = firstn k recs.

End LoopInvariant.

(** ** The log of the calls into the storage engine *)

(** Reading the log of the calls: a successful [executemany] adds its
    batch to the open transaction, a successful [commit] makes the
    transaction durable, a call that raised leaves both as they were. *)
Definition log_step (cp : list record * list record) (e : op_event)
  : list record * list record :=
  if raised e then cp
  else match op e with
       | OpExecuteMany b => (fst cp, snd cp ++ b)
       | OpCommit => (fst cp ++ snd cp, [])
       | _ => cp
       end.

Definition replay (log : list op_event) : list record * list record :=
  fold_left log_step log ([], []).

(** The records of the batches that were executed and then committed. *)
Definition committed (log : list op_event) : list record := fst (replay log).

(** No call has raised. *)
Definition clean (log : list op_event) : Prop :=
  Forall (fun e => raised e = false) log.

(** A call has raised, and it is the last call of the log. *)
Definition failed_last (log : list op_event) : Prop :=
  exists log' e, log = log' ++ [e] /\ raised e = true /\ clean log'.

(** No connection is left open. *)
Definition released (w : world) : Prop :=
  match conn w with
  | Connected _ => False
  | _ => True
  end.

Section FaultInvariants.

(** The rows of the table when the connection was opened. *)
Variable base : list record.

(** The table holds the rows it had and the committed batches. *)
Definition durable (w : world) : Prop :=
  rows_of (disk w) = upsert_all base (committed (oplog w)).

(** The connection is open, with the pending records [p] in its
    transaction, and nothing has failed. *)
Definition in_transaction (p : list record) (w : world) : Prop :=
  (exists txn, conn w = Connected txn /\
     match txn with
     | Some v => rows_of v = upsert_all (rows_of (disk w)) p
     | None => p = []
     end) /\
  clean (oplog w) /\ snd (replay (oplog w)) = p /\ durable w.

Definition idle (w : world) : Prop := conn w = Connected None /\ in_transaction [] w.

(** How the body of the [try] may end in an exception. *)
Definition aborted (e : exn) (w : world) : Prop :=
  durable w /\
  match e with
  | SqliteError => failed_last (oplog w)
  | SystemExit _ => False
  | _ => clean (oplog w)
  end.

(** How the run ends when it ends in an exception. *)
Definition reported (e : exn) (w : world) : Prop :=
  durable w /\
  (clean (oplog w) \/
   (failed_last (oplog w) /\ e = SystemExit 1 /\ In MsgSqliteError (stdout w))).

End FaultInvariants.

(** ** The buffer *)

(** The points of the inner loop at which the buffer is looked at. *)
Inductive point :=
| AfterAppend    (* line 62: the record is in the buffer *)
| AfterCheck.    (* line 68: the test of the length, and the flush, are done *)

Section BufferTrace.

Variable unicode_decimal : char -> bool.
Variable faults : nat -> option nat.
Variable batch_size : Z.

(** The values of the loop variables while the matches of one file are
    processed, in order; the list ends where the run is aborted. *)
Fixpoint record_states (ms : list (text * text)) (st : loop_vars) (w : world)
  : list (point * loop_vars) :=
  match ms with
  | [] => []
  | m :: ms' =>
    let st1 := append_record st m in
    (AfterAppend, st1) ::
    match flush_if_full faults batch_size st1 w with
    | (Ok st2, w2) => (AfterCheck, st2) :: record_states ms' st2 w2
    | (Raise _, _) => []
    end
  end.




End BufferTrace.

(** ** UTF-8, as the Unicode standard defines it *)

Module Utf8Spec.

Local Open Scope N_scope.

(** A Unicode scalar value: a code point that is no surrogate. *)
Definition scalar_value (c : char) : Prop :=
  c < 0xD800 \/ (0xE000 <= c /\ c <= 0x10FFFF).

(** The UTF-8 encoding of a scalar value. *)
Definition encode (c : char) : list byte :=
  if c <? 0x80 then [c]
  else if c <? 0x800 then [0xC0 + c / 64; 0x80 + c mod 64]
  else if c <? 0x10000 then
    [0xE0 + c / 4096; 0x80 + (c / 64) mod 64; 0x80 + c mod 64]
  else
    [0xF0 + c / 262144; 0x80 + (c / 4096) mod 64; 0x80 + (c / 64) mod 64;
     0x80 + c mod 64].

Definition encode_text (s : text) : list byte := flat_map encode s.

(** The bytes begin with the encoding of a scalar value. *)
Definition well_formed_start (raw : list byte) : Prop :=
  exists c rest, scalar_value c /\ raw = encode c ++ rest.

(** Decoding with [errors='ignore']: where the encoding of a scalar
    value begins it is decoded, and a byte at which none begins is
    dropped. *)
Inductive decoded : list byte -> text -> Prop :=
| decoded_nil : decoded [] []
| decoded_char c rest t :
    scalar_value c -> decoded rest t -> decoded (encode c ++ rest) (c :: t)
| decoded_drop b rest t :
    ~ well_formed_start (b :: rest) -> decoded rest t -> decoded (b :: rest) t.

End Utf8Spec.


(** ** Undecodable and unreadable files *)

(** Bytes that stand for themselves in UTF-8. *)
Definition ascii_bytes (t : list byte) : Prop :=
  Forall (fun b => (b <? 0x80)%N = true) t.

(** A byte that cannot start a UTF-8 sequence. *)
Definition invalid_start (b : byte) : bool :=
  ((0x80 <=? b)%N && (b <? 0xC2)%N) || (0xF5 <=? b)%N.

(** ** The script as a program *)

(** [DATABASE_FILE = "uid_phone_map.db"] is a relative path: the engine
    opens the file in the working directory, and [sqlite3.connect], the
    first call into the engine, raises when there is no working
    directory, whatever else the engine does. *)
Definition engine (fs : filesystem) (faults : nat -> option nat) : nat -> option nat :=
  match cwd fs with
  | Some _ => faults
  | None => fun n => match n with
                     | O => Some 0
                     | S _ => faults n
                     end
  end.

(** [if __name__ == "__main__": parse_and_import_data()]: the exit
    status of [python data_importer.py], with the world it leaves. *)
Definition main (unicode_decimal : char -> bool) (fs : filesystem)
    (faults : nat -> option nat) (d : database) : Z * world :=
  let '(r, w) := parse_and_import_data unicode_decimal fs (engine fs faults)
                   (initial_world d) in
  (exit_status r, w).

(** ** The lines a run prints *)

(** The [i]-th record fills the buffer: it is flushed with the records
    before it. *)
Definition flushes_at (batch_size : Z) (i : nat) : bool :=
  Nat.eqb (committed_count batch_size i) i.

(** The progress lines while records [before + 1] to [before + count]
    are processed. *)
Definition progress_lines (batch_size : Z) (before count : nat) : list message :=
  flat_map (fun i => if flushes_at batch_size i
                     then [MsgImportedSoFar (Z.of_nat i)] else [])
           (seq (S before) count).

(** The lines of the loop over the files, up to the first file that
    cannot be read; [before] records were processed earlier. *)
Fixpoint file_lines (unicode_decimal : char -> bool) (batch_size : Z)
    (files : list entry) (before : nat) : list message :=
  match files with
  | [] => []
  | e :: files' =>
    MsgProcessing (name e) ::
    match state e with
    | Readable raw =>
      let n := length (findall unicode_decimal (read_text raw)) in
      progress_lines batch_size before n
      ++ file_lines unicode_decimal batch_size files' (before + n)
    | _ => []
    end
  end.

(** What a run prints when the storage engine does not fail. *)
Definition expected_stdout (unicode_decimal : char -> bool) (fs : filesystem)
    (batch_size : Z) : list message :=
  [MsgConnecting; MsgSchemaCreated]
  ++ match glob (data_dir fs) with
     | [] => [MsgNoFilesInDataDir]
     | _ => []
     end
  ++ match selected fs with
     | [] => [MsgNoFilesInCwd]
     | files =>
       file_lines unicode_decimal batch_size files 0
       ++ match snd (contents_until_error files) with
          | None => [MsgImportComplete (Z.of_nat (length (all_records unicode_decimal fs)))]
          | Some FileNotFoundError => [MsgDirectoryNotFound]
          | Some _ => []
          end
     end.

(** The files named by the lines [Processing file: ...] of an output. *)
Definition processing_names (out : list message) : list text :=
  flat_map (fun m => match m with MsgProcessing n => [n] | _ => [] end) out.

(** A name of the form [qb...txt], as the pattern of the glob asks. *)
Definition qb_txt_name (n : text) : Prop :=
  exists x, n = text_of_string "qb" ++ x ++ text_of_string ".txt".

(** ** Concrete inputs *)

Definition text_9001 : text := text_of_string "9001".
Definition text_5551234 : text := text_of_string "5551234".
Definition text_5555678 : text := text_of_string "5555678".

(** One file with one line. *)
Definition fs_one_line : filesystem :=
  {| data_dir := Some [file "qb1.txt" ["5551234----9001"%string]]; cwd := Some [] |}.

(** One file in which uid 9001 occurs twice. *)
Definition fs_two_lines : filesystem :=
  {| data_dir := Some [file "qb1.txt" ["5551234----9001"; "5555678----9001"]%string];
     cwd := Some [] |}.

(** Both directories exist and hold no data file. *)
Definition fs_no_files : filesystem :=
  {| data_dir := Some [file "notes.txt" ["1----2"%string]]; cwd := Some [] |}.

(** Neither directory exists. *)
Definition fs_missing : filesystem := {| data_dir := None; cwd := None |}.

(** A well-formed file, then one that cannot be opened. *)
Definition fs_unreadable : filesystem :=
  {| data_dir := Some [file "qb1.txt" ["5551234----9001"%string];
                       {| name := text_of_string "qb2.txt"; state := Unreadable |}];
     cwd := Some [] |}.

(** A file with bytes that are not UTF-8 around a record, and a
    well-formed file. *)
Definition fs_undecodable : filesystem :=
  {| data_dir :=
       Some [{| name := text_of_string "qb1.txt";
                state := Readable ([0xFF; 0xC3] ++ text_of_string "77----88" ++ [0xE2; 0x82])%N |};
             file "qb2.txt" ["5551234----9001"%string]];
     cwd := Some [] |}.

(** The fifth call into the engine, the first [executemany] of a run,
    raises after one row. *)
Definition fail_first_batch : nat -> option nat :=
  fun n => if Nat.eqb n 4 then Some 1 else None.

(** A file in which uid 9001 occurs first and last, then a file that
    cannot be opened. *)
Definition fs_stale : filesystem :=
  {| data_dir := Some [file "qb1.txt" ["111----9001"; "5----6"; "222----9001"]%string;
                       {| name := text_of_string "qb2.txt"; state := Unreadable |}];
     cwd := Some [] |}.

(** A well-formed file, then one that the listing names and [open] does
    not find. *)
Definition fs_vanished : filesystem :=
  {| data_dir := Some [file "qb1.txt" ["5551234----9001"%string];
                       {| name := text_of_string "qb2.txt"; state := Dangling |}];
     cwd := Some [] |}.

(** The loop variables when the 50000th record has been appended. *)
Definition full_buffer : loop_vars :=
  {| total_records := BATCH_SIZE;
     batch_data := repeat (text_9001, text_5551234) (Z.to_nat BATCH_SIZE) |}.

(** An open connection on a database with the schema and one row, of
    uid 7, and no transaction pending. *)
Definition open_connection : world :=
  {| disk := Some {| rows := [(text_of_string "7", text_of_string "1")]; indexed := true |};
     conn := Connected None; stdout := []; oplog := [] |}.

(** A database with the schema and one row, of uid 7. *)
Definition db_seven : database :=
  Some {| rows := [(text_of_string "7", text_of_string "1")]; indexed := true |}.

(** A connection that was just opened on a file without a table. *)
Definition fresh_connection : world :=
  {| disk := None; conn := Connected None; stdout := [MsgConnecting]; oplog := [] |}.

(** * Properties *)

(** ** The extractor *)

Section ExtractorProofs.

Variable unicode_decimal : char -> bool.

Lemma is_digit_hyphen : is_digit unicode_decimal HYPHEN = false.
Proof. reflexivity. Qed.

Lemma span_digits_spec s d r :
  span_digits unicode_decimal s = (d, r) ->
  s = d ++ r /\
  Forall (fun c => is_digit unicode_decimal c = true) d /\
  no_digit_ahead unicode_decimal r.
Proof.
  revert d r. induction s as [|c s IH]; simpl; intros d r H.
  - inversion H; subst. repeat split; constructor.
  - destruct (is_digit unicode_decimal c) eqn:Hc.
    + destruct (span_digits unicode_decimal s) as [d' r'] eqn:Hs.
      inversion H; subst. destruct (IH d' r eq_refl) as (-> & Hd & Hr).
      repeat split; auto.
    + inversion H; subst. repeat split; auto.
Qed.

Lemma span_digits_app a r :
  Forall (fun c => is_digit unicode_decimal c = true) a ->
  no_digit_ahead unicode_decimal r ->
  span_digits unicode_decimal (a ++ r) = (a, r).
Proof.
  intros Ha Hr. induction Ha as [|c a Hc _ IH]; simpl.
  - destruct r as [|c r]; simpl in *; [reflexivity | now rewrite Hr].
  - now rewrite Hc, IH.
Qed.

(** Every text splits into its leading digits and a rest with no digit
    in front. *)
Lemma span_digits_total s :
  exists d r, span_digits unicode_decimal s = (d, r).
Proof. destruct (span_digits unicode_decimal s) as [d r]. eauto. Qed.

Lemma lit_hyphens_app r : lit_hyphens (HYPHENS4 ++ r) = Some r.
Proof. reflexivity. Qed.

Lemma lit_hyphens_spec s r : lit_hyphens s = Some r -> s = HYPHENS4 ++ r.
Proof.
  unfold lit_hyphens.
  destruct s as [|h1 [|h2 [|h3 [|h4 s]]]]; try discriminate.
  destruct (h1 =? HYPHEN)%N eqn:H1; try discriminate.
  destruct (h2 =? HYPHEN)%N eqn:H2; try discriminate.
  destruct (h3 =? HYPHEN)%N eqn:H3; try discriminate.
  destruct (h4 =? HYPHEN)%N eqn:H4; try discriminate.
  apply N.eqb_eq in H1, H2, H3, H4. subst. simpl. now intros [= ->].
Qed.

Lemma lit_hyphens_digit c s :
  is_digit unicode_decimal c = true -> lit_hyphens (c :: s) = None.
Proof.
  intros Hc. unfold lit_hyphens.
  destruct s as [|h2 [|h3 [|h4 s]]]; try reflexivity.
  destruct (c =? HYPHEN)%N eqn:H1; try reflexivity.
  apply N.eqb_eq in H1. subst. rewrite is_digit_hyphen in Hc. discriminate.
Qed.

Lemma match_tail_spec s b rest :
  match_tail unicode_decimal s = Some (b, rest) <->
  s = HYPHENS4 ++ b ++ rest /\ digits unicode_decimal b /\ no_digit_ahead unicode_decimal rest.
Proof.
  unfold match_tail. split.
  - destruct (lit_hyphens s) as [r|] eqn:Hl; try discriminate.
    apply lit_hyphens_spec in Hl. subst s.
    destruct (span_digits unicode_decimal r) as [d r'] eqn:Hs.
    apply span_digits_spec in Hs. destruct Hs as (-> & Hd & Hr).
    destruct d as [|c d]; try discriminate.
    intros [= <- <-]. repeat split; auto. discriminate.
  - intros (-> & [Hne Hb] & Hr). rewrite lit_hyphens_app.
    rewrite (span_digits_app _ _ Hb Hr). destruct b; [contradiction | reflexivity].
Qed.

(** Backtracking never finds anything the greedy choice misses: the
    first group is the whole run of digits at the match position. *)
Lemma match_from_greedy seen s :
  match_from unicode_decimal seen s =
  match span_digits unicode_decimal s with
  | ([], _) => None
  | (a, r) =>
    match match_tail unicode_decimal r with
    | Some (b, rest) => Some (rev seen ++ a, b, rest)
    | None => None
    end
  end.
Proof.
  revert seen. induction s as [|c s IH]; intros seen; simpl; [reflexivity|].
  destruct (is_digit unicode_decimal c) eqn:Hc; [|reflexivity].
  rewrite IH. destruct (span_digits unicode_decimal s) as [d r] eqn:Hs.
  pose proof (span_digits_spec _ _ _ Hs) as (Hsplit & Hd & Hr).
  destruct d as [|c' d].
  - simpl in Hsplit. subst r. destruct (match_tail unicode_decimal s) as [[b rest]|]; reflexivity.
  - destruct (match_tail unicode_decimal r) as [[b rest]|] eqn:Ht.
    + simpl. rewrite <- app_assoc. reflexivity.
    + subst s. inversion Hd; subst. unfold match_tail at 1. simpl app.
      rewrite lit_hyphens_digit by assumption. reflexivity.
Qed.

Lemma match_at_spec s a b rest :
  match_at unicode_decimal s = Some (a, b, rest) <->
  occurrence unicode_decimal s a b rest /\ no_digit_ahead unicode_decimal rest.
Proof.
  unfold match_at. rewrite match_from_greedy. simpl rev. simpl app.
  destruct (span_digits unicode_decimal s) as [d r] eqn:Hs.
  pose proof (span_digits_spec _ _ _ Hs) as (Hsplit & Hd & Hr).
  split.
  - destruct d as [|c d]; try discriminate.
    destruct (match_tail unicode_decimal r) as [[b' rest']|] eqn:Ht; try discriminate.
    intros [= <- <- <-]. apply match_tail_spec in Ht. destruct Ht as (-> & Hb & Hrest).
    split; [|assumption]. split; [assumption|]. split; [|assumption].
    split; [discriminate | assumption].
  - intros [(Hs' & [Hne Ha] & Hb) Hrest].
    assert (Hsp : span_digits unicode_decimal s = (a, HYPHENS4 ++ b ++ rest)).
    { rewrite Hs'. apply span_digits_app; [assumption | reflexivity]. }
    rewrite Hs in Hsp. injection Hsp as Hd' Hr'. clear Hsplit. subst d r.
    destruct a as [|c a]; [contradiction|].
    assert (Ht : match_tail unicode_decimal (HYPHENS4 ++ b ++ rest) = Some (b, rest))
      by (apply match_tail_spec; auto).
    change (HYPHENS4 ++ b ++ rest) with (HYPHEN :: HYPHEN :: HYPHEN :: HYPHEN :: b ++ rest) in Ht.
    rewrite Ht. reflexivity.
Qed.

(** A match of the pattern with a shorter second group extends to the
    greedy one. *)
Lemma matches_here_match_at s :
  matches_here unicode_decimal s <-> exists m, match_at unicode_decimal s = Some m.
Proof.
  split.
  - intros (a & b & rest & Hs & Ha & [Hne Hb]).
    destruct (span_digits_total rest) as (d & r & Hsp).
    pose proof (span_digits_spec _ _ _ Hsp) as (-> & Hd & Hr).
    exists (a, b ++ d, r). apply match_at_spec. split; [|assumption].
    split; [|split; [assumption|]].
    + rewrite Hs, <- !app_assoc. reflexivity.
    + split; [destruct b; [contradiction | discriminate] | apply Forall_app; auto].
  - intros ([[a b] rest] & Hm). apply match_at_spec in Hm. destruct Hm as [Ho _].
    exists a, b, rest. exact Ho.
Qed.

Lemma occurrence_shorter s a b rest :
  occurrence unicode_decimal s a b rest -> length rest < length s.
Proof.
  intros (-> & _ & _). rewrite !length_app. simpl. lia.
Qed.

Lemma scan_spec rounds s :
  length s < rounds ->
  nonoverlapping_matches unicode_decimal s (scan unicode_decimal rounds s).
Proof.
  revert s. induction rounds as [|n IH]; intros s Hlen; [lia|]. simpl.
  destruct (match_at unicode_decimal s) as [[[a b] rest]|] eqn:Hm.
  - apply match_at_spec in Hm. destruct Hm as [Ho Hr].
    apply nm_match with (rest := rest); auto.
    apply IH. pose proof (occurrence_shorter _ _ _ _ Ho). lia.
  - destruct s as [|c s].
    + constructor.
    + apply nm_skip.
      * intros H. apply matches_here_match_at in H. destruct H as [m H]. congruence.
      * apply IH. simpl in Hlen. lia.
Qed.

Lemma scan_complete s l :
  nonoverlapping_matches unicode_decimal s l ->
  forall rounds, length s < rounds -> scan unicode_decimal rounds s = l.
Proof.
  induction 1 as [|c s l Hno _ IH|s a b rest l Ho Hr _ IH]; intros rounds Hlen.
  - destruct rounds; [lia|]. reflexivity.
  - destruct rounds as [|n]; [lia|]. simpl.
    destruct (match_at unicode_decimal (c :: s)) as [m|] eqn:Hm.
    + exfalso. apply Hno. apply matches_here_match_at. eauto.
    + apply IH. simpl in Hlen. lia.
  - destruct rounds as [|n]; [lia|]. simpl.
    assert (Hm : match_at unicode_decimal s = Some (a, b, rest))
      by (apply match_at_spec; auto).
    rewrite Hm. f_equal. apply IH. pose proof (occurrence_shorter _ _ _ _ Ho). lia.
Qed.

(** More rounds than [findall] allows change nothing. *)
Lemma scan_enough rounds s :
  length s < rounds -> scan unicode_decimal rounds s = findall unicode_decimal s.
Proof.
  intros H. unfold findall.
  apply scan_complete; [apply scan_spec|]; lia.
Qed.

(** Every pair of the result stands in the text: digits, four hyphens,
    digits. *)
Lemma findall_sound content a b :
  In (a, b) (findall unicode_decimal content) ->
  exists pre post,
    content = pre ++ a ++ HYPHENS4 ++ b ++ post /\
    digits unicode_decimal a /\ digits unicode_decimal b.
Proof.
  assert (H : nonoverlapping_matches unicode_decimal content
                (findall unicode_decimal content)) by (apply scan_spec; lia).
  revert a b. induction H as [|c s l _ _ IH|s a0 b0 rest l Ho _ _ IH]; intros a b Hin.
  - contradiction.
  - destruct (IH a b Hin) as (pre & post & -> & Ha & Hb).
    exists (c :: pre), post. auto.
  - destruct Ho as (-> & Ha0 & Hb0). destruct Hin as [[= <- <-] | Hin].
    + exists [], rest. auto.
    + destruct (IH a b Hin) as (pre & post & -> & Ha & Hb).
      exists (a0 ++ HYPHENS4 ++ b0 ++ pre), post.
      split; [|auto]. now rewrite <- !app_assoc.
Qed.

(** C5. [re.findall(r'(\d+)----(\d+)', content)] returns, for every
    text, exactly the non-overlapping matches of one or more digits,
    four hyphens, one or more digits, in left-to-right order: a
    sequence is this list of matches if and only if it is the result.
    The function is total, and a text in which the pattern occurs
    nowhere gives the empty list. *)
Theorem findall_nonoverlapping_matches (content : text) (l : list (text * text)) :
  (findall unicode_decimal content = l <-> nonoverlapping_matches unicode_decimal content l)
  /\ ((forall pre s, content = pre ++ s -> ~ matches_here unicode_decimal s) ->
      findall unicode_decimal content = []).
Proof.
  split; [split|].
  - intros <-. apply scan_spec. lia.
  - intros H. apply (scan_complete _ _ H). lia.
  - intros Hnone. apply (scan_complete content []); [|lia].
    clear l.
    assert (H : forall pre s,
               content = pre ++ s -> nonoverlapping_matches unicode_decimal s []).
    { intros pre s. revert pre. induction s as [|c s IH]; intros pre Hs.
      - constructor.
      - apply nm_skip; [eapply Hnone; eauto|].
        apply (IH (pre ++ [c])). rewrite <- app_assoc. exact Hs. }
    apply (H []). reflexivity.
Qed.

End ExtractorProofs.

(** ** Upserts *)

Section StoreAlgebra.

Lemma same_uid_true u r : same_uid u r = true <-> uid r = u.
Proof. unfold same_uid. destruct (text_eq_dec (uid r) u); split; congruence. Qed.

Lemma same_uid_false u r : same_uid u r = false <-> uid r <> u.
Proof. unfold same_uid. destruct (text_eq_dec (uid r) u); split; congruence. Qed.

Lemma same_uid_sym r r' : same_uid (uid r) r' = same_uid (uid r') r.
Proof.
  destruct (same_uid (uid r') r) eqn:H.
  - apply same_uid_true in H. apply same_uid_true. congruence.
  - apply same_uid_false in H. apply same_uid_false. congruence.
Qed.

Lemma upsert_all_app base p q :
  upsert_all base (p ++ q) = upsert_all (upsert_all base p) q.
Proof. apply fold_left_app. Qed.

Lemma upsert_all_snoc base p r :
  upsert_all base (p ++ [r]) = insert_or_replace (upsert_all base p) r.
Proof. rewrite upsert_all_app. reflexivity. Qed.

Lemma filter_filter {A} (f g : A -> bool) l :
  filter f (filter g l) = filter (fun x => g x && f x) l.
Proof.
  induction l as [|x l IH]; simpl; [reflexivity|].
  destruct (g x); simpl; [destruct (f x)|]; rewrite ?IH; reflexivity.
Qed.

(** What a sequence of upserts leaves: the old rows whose uid is not
    written, in their order, then the last write of each uid, in the
    order of these writes. *)
Lemma upsert_all_last_writes p : forall base,
  upsert_all base p =
  filter (fun r => negb (has_uid (uid r) p)) base ++ last_writes p.
Proof.
  induction p as [|r p IH]; intros base; simpl.
  - rewrite app_nil_r. induction base as [|x base IHb]; simpl; congruence.
  - rewrite IH. unfold insert_or_replace. rewrite filter_app, filter_filter. simpl.
    rewrite <- app_assoc. f_equal.
    + apply filter_ext. intros x. rewrite same_uid_sym. now rewrite negb_orb.
    + destruct (has_uid (uid r) p); reflexivity.
Qed.

Lemma last_writes_has_uid p r : In r (last_writes p) -> has_uid (uid r) p = true.
Proof.
  induction p as [|x p IH]; simpl; [contradiction|].
  destruct (has_uid (uid x) p) eqn:Hx; simpl.
  - intros H. rewrite (IH H). apply orb_true_r.
  - intros [<- | H].
    + assert (E : same_uid (uid x) x = true) by now apply same_uid_true.
      now rewrite E.
    + rewrite (IH H). apply orb_true_r.
Qed.

Lemma filter_none {A} (f : A -> bool) l :
  (forall x, In x l -> f x = false) -> filter f l = [].
Proof.
  induction l as [|x l IH]; simpl; intros H; [reflexivity|].
  rewrite (H x) by auto. apply IH. auto.
Qed.

(** Upserting a sequence a second time changes nothing. *)
Lemma upsert_all_idempotent base p :
  upsert_all (upsert_all base p) p = upsert_all base p.
Proof.
  rewrite (upsert_all_last_writes p (upsert_all base p)).
  rewrite (upsert_all_last_writes p base) at 1.
  rewrite filter_app, filter_filter.
  rewrite (filter_none _ (last_writes p)).
  - rewrite app_nil_r, (upsert_all_last_writes p base). f_equal.
    apply filter_ext. intros x. now rewrite andb_diag.
  - intros x Hx. now rewrite (last_writes_has_uid _ _ Hx).
Qed.

Lemma filter_insert_same rs u v :
  filter (same_uid u) (insert_or_replace rs (u, v)) = [(u, v)].
Proof.
  unfold insert_or_replace. rewrite filter_app, filter_filter. simpl.
  rewrite filter_none.
  - assert (E : same_uid u (u, v) = true) by now apply same_uid_true.
    now rewrite E.
  - intros x _. destruct (same_uid u x); reflexivity.
Qed.

Lemma filter_insert_other rs u r :
  uid r <> u ->
  filter (same_uid u) (insert_or_replace rs r) = filter (same_uid u) rs.
Proof.
  intros Hne. unfold insert_or_replace. rewrite filter_app, filter_filter. simpl.
  apply same_uid_false in Hne. rewrite Hne, app_nil_r.
  apply filter_ext. intros x.
  destruct (same_uid u x) eqn:Hx; [|now rewrite andb_false_r].
  rewrite andb_true_r. apply same_uid_true in Hx. apply same_uid_false in Hne.
  assert (E : same_uid (uid r) x = false) by (apply same_uid_false; congruence).
  now rewrite E.
Qed.

Lemma filter_upsert_all_other p u : forall rs,
  has_uid u p = false ->
  filter (same_uid u) (upsert_all rs p) = filter (same_uid u) rs.
Proof.
  induction p as [|r p IH]; intros rs; simpl; [reflexivity|].
  intros H. apply orb_false_iff in H. destruct H as [Hr Hp].
  rewrite IH by assumption. apply filter_insert_other. now apply same_uid_false.
Qed.

(** Last write wins, and leaves one row. *)
Lemma upsert_all_last_write_wins base before u v after :
  has_uid u after = false ->
  filter (same_uid u) (upsert_all base (before ++ (u, v) :: after)) = [(u, v)].
Proof.
  intros H. rewrite upsert_all_app. simpl.
  change (fold_left insert_or_replace after ?x) with (upsert_all x after).
  rewrite filter_upsert_all_other by assumption. apply filter_insert_same.
Qed.

Lemma has_uid_insert rs u v : has_uid u (insert_or_replace rs (u, v)) = true.
Proof.
  unfold has_uid, insert_or_replace. rewrite existsb_app. simpl.
  assert (E : same_uid u (u, v) = true) by now apply same_uid_true.
  rewrite E. apply orb_true_r.
Qed.

Lemma has_uid_insert_keep rs u r :
  has_uid u rs = true -> has_uid u (insert_or_replace rs r) = true.
Proof.
  unfold has_uid, insert_or_replace. intros H. rewrite existsb_app. simpl.
  destruct (same_uid u r) eqn:Hr; [apply orb_true_r|].
  apply orb_true_iff. left.
  apply existsb_exists in H. destruct H as (x & Hx & Hu).
  apply existsb_exists. exists x. split; [|assumption].
  apply filter_In. split; [assumption|].
  apply same_uid_true in Hu. apply same_uid_false in Hr.
  apply negb_true_iff, same_uid_false. congruence.
Qed.

Lemma has_uid_upsert_all u p : forall rs,
  has_uid u rs = true -> has_uid u (upsert_all rs p) = true.
Proof.
  induction p as [|r p IH]; intros rs H; simpl; [assumption|].
  apply IH. now apply has_uid_insert_keep.
Qed.

End StoreAlgebra.

(** ** Triples *)

Section Triples.

Lemma hoare_ret {A} (a : A) (P : world -> Prop) Q E :
  (forall w, P w -> Q a w) -> hoare P (ret a) Q E.
Proof. intros H w Hw. simpl. auto. Qed.

Lemma hoare_bind {A B} (m : M A) (k : A -> M B) P R Q E :
  hoare P m R E -> (forall a, hoare (R a) (k a) Q E) -> hoare P (bind m k) Q E.
Proof.
  intros Hm Hk w Hw. unfold bind. specialize (Hm w Hw).
  destruct (m w) as [[a|e] w']; [apply Hk|]; assumption.
Qed.

Lemma hoare_conseq {A} (m : M A) (P P' : world -> Prop) (Q Q' : A -> world -> Prop)
    (E E' : exn -> world -> Prop) :
  hoare P' m Q' E' ->
  (forall w, P w -> P' w) -> (forall a w, Q' a w -> Q a w) ->
  (forall e w, E' e w -> E e w) ->
  hoare P m Q E.
Proof.
  intros H HP HQ HE w Hw. specialize (H w (HP w Hw)).
  destruct (m w) as [[a|e] w']; auto.
Qed.

Lemma hoare_for_each {A S} (body : S -> A -> M S)
    (I : list A -> S -> world -> Prop) E :
  (forall done x s, hoare (I done s) (body s x) (I (done ++ [x])) E) ->
  forall l done s, hoare (I done s) (for_each body l s) (I (done ++ l)) E.
Proof.
  intros Hbody. induction l as [|x l IH]; intros done s; simpl.
  - apply hoare_ret. intros w. now rewrite app_nil_r.
  - eapply hoare_bind; [apply Hbody|]. intros s'.
    replace (done ++ x :: l) with ((done ++ [x]) ++ l) by now rewrite <- app_assoc.
    apply IH.
Qed.

Lemma hoare_try_except {A} (body : M A) (handler : exn -> M A) P Q E E' :
  hoare P body Q E' -> (forall e, hoare (E' e) (handler e) Q E) ->
  hoare P (try_except body handler) Q E.
Proof.
  intros Hb Hh w Hw. unfold try_except. specialize (Hb w Hw).
  destruct (body w) as [[a|e] w']; [assumption | now apply Hh].
Qed.

(** A cleanup that does not raise keeps the outcome of the body. *)
Lemma hoare_try_finally {A} (body : M A) (cleanup : M unit) P
    (Q Q' : A -> world -> Prop) (E E' : exn -> world -> Prop) :
  hoare P body Q' E' ->
  (forall a, hoare (Q' a) cleanup (fun _ => Q a) (fun _ _ => False)) ->
  (forall e, hoare (E' e) cleanup (fun _ => E e) (fun _ _ => False)) ->
  hoare P (try_finally body cleanup) Q E.
Proof.
  intros Hb Hq He w Hw. unfold try_finally. specialize (Hb w Hw).
  destruct (body w) as [[a|e] w'].
  - specialize (Hq a w' Hb). destruct (cleanup w') as [[[]|e'] w'']; [assumption | contradiction].
  - specialize (He e w' Hb). destruct (cleanup w') as [[[]|e'] w'']; [assumption | contradiction].
Qed.

Lemma hoare_print m (P : world -> Prop) (Q : unit -> world -> Prop) E :
  (forall w, P w ->
     Q tt {| disk := disk w; conn := conn w; stdout := stdout w ++ [m]; oplog := oplog w |}) ->
  hoare P (print m) Q E.
Proof. intros H w Hw. simpl. auto. Qed.

End Triples.

Section Counting.

Lemma committed_count_le bs n : committed_count bs n <= n.
Proof. unfold committed_count. destruct (bs <=? 0)%Z; lia. Qed.

Lemma committed_count_flush bs n :
  (Z.of_nat (n - committed_count bs n + 1) >=? bs)%Z = true ->
  committed_count bs (S n) = S n.
Proof.
  unfold committed_count. intros H. apply Z.geb_le in H.
  destruct (bs <=? 0)%Z eqn:Hbs; [reflexivity|]. apply Z.leb_gt in Hbs.
  set (b := Z.to_nat bs) in *. assert (Hb : b <> 0) by lia.
  pose proof (Nat.mod_upper_bound n b Hb) as Hlt.
  pose proof (Nat.div_mod_eq n b) as Hn.
  assert (Hle : n mod b <= n) by (apply Nat.Div0.mod_le).
  assert (Hm : n mod b = b - 1) by lia.
  assert (E : S n mod b = 0).
  { symmetry. apply (Nat.mod_unique (S n) b (S (n / b)) 0); lia. }
  rewrite E. lia.
Qed.

Lemma committed_count_keep bs n :
  (Z.of_nat (n - committed_count bs n + 1) >=? bs)%Z = false ->
  committed_count bs (S n) = committed_count bs n.
Proof.
  unfold committed_count. intros H. rewrite Z.geb_leb in H. apply Z.leb_gt in H.
  destruct (bs <=? 0)%Z eqn:Hbs.
  - apply Z.leb_le in Hbs. lia.
  - apply Z.leb_gt in Hbs.
    set (b := Z.to_nat bs) in *. assert (Hb : b <> 0) by lia.
    pose proof (Nat.mod_upper_bound n b Hb) as Hlt.
    pose proof (Nat.div_mod_eq n b) as Hn.
    assert (Hle : n mod b <= n) by (apply Nat.Div0.mod_le).
    assert (E : S n mod b = S (n mod b)).
    { symmetry. apply (Nat.mod_unique (S n) b (n / b) (S (n mod b))); lia. }
    rewrite E. lia.
Qed.

Lemma unbatched_upsert_upsert_all recs : forall rs,
  unbatched_upsert rs recs = upsert_all rs recs.
Proof. induction recs as [|r recs IH]; intros rs; simpl; [reflexivity | apply IH]. Qed.

Lemma sent_app log log' : sent (log ++ log') = sent log ++ sent log'.
Proof. unfold sent. now rewrite map_app, concat_app. Qed.

End Counting.

(** ** Runs in which the storage engine does not fail *)

Section NoFaults.

Variable unicode_decimal : char -> bool.
Variable batch_size : Z.
Variable base : list record.

Lemma executemany_no_faults b w t :
  conn w = Connected None -> disk w = Some t ->
  executemany no_faults b w =
  (Ok tt, {| disk := Some t;
             conn := Connected
                       (Some (Some {| rows := upsert_all (rows t) b; indexed := indexed t |}));
             stdout := stdout w;
             oplog := oplog w ++ [{| op := OpExecuteMany b; raised := false |}] |}).
Proof.
  intros Hc Hd. unfold executemany, statement, no_faults, log_op.
  rewrite Hc, Hd. reflexivity.
Qed.

Lemma commit_no_faults w v :
  conn w = Connected (Some v) ->
  commit no_faults w =
  (Ok tt, {| disk := v; conn := Connected None; stdout := stdout w;
             oplog := oplog w ++ [{| op := OpCommit; raised := false |}] |}).
Proof.
  intros Hc. unfold commit, no_faults, log_op. rewrite Hc. reflexivity.
Qed.

Lemma flush_no_faults {A} b w t (k : M A) :
  conn w = Connected None -> disk w = Some t ->
  (executemany no_faults b ;; commit no_faults ;; k)%imp w =
  k {| disk := Some {| rows := upsert_all (rows t) b; indexed := indexed t |};
       conn := Connected None;
       stdout := stdout w;
       oplog := (oplog w ++ [{| op := OpExecuteMany b; raised := false |}])
                ++ [{| op := OpCommit; raised := false |}] |}.
Proof.
  intros Hc Hd. unfold bind.
  rewrite (executemany_no_faults b w t Hc Hd).
  erewrite commit_no_faults by reflexivity. reflexivity.
Qed.

Lemma process_record_no_faults recs st m :
  hoare (between_records batch_size base recs st)
        (process_record no_faults batch_size st m)
        (between_records batch_size base (recs ++ [(snd m, fst m)]))
        (fun _ _ => False).
Proof.
  intros w (Hc & Hd & Hb & Ht & Hs).
  unfold process_record, flush_if_full.
  destruct m as [phone u]. simpl fst. simpl snd.
  set (k := committed_count batch_size (length recs)) in *.
  assert (Hk : k <= length recs) by apply committed_count_le.
  assert (Hlen : length (batch_data (append_record st (phone, u))) = length recs - k + 1).
  { simpl. rewrite Hb, length_app, length_skipn. simpl. lia. }
  rewrite Hlen.
  destruct (Z.of_nat (length recs - k + 1) >=? batch_size)%Z eqn:Hfull.
  - apply committed_count_flush in Hfull.
    rewrite (flush_no_faults _ w _ _ Hc Hd).
    unfold bind, print, ret, between_records.
    cbn [disk conn stdout oplog batch_data total_records append_record rows indexed].
    rewrite length_app. cbn [length].
    replace (length recs + 1) with (S (length recs)) by lia.
    rewrite Hfull.
    assert (Hall : firstn (S (length recs)) (recs ++ [(u, phone)]) = recs ++ [(u, phone)]).
    { apply firstn_all2. rewrite length_app. simpl. lia. }
    rewrite Hall. repeat split.
    + rewrite Hb, <- upsert_all_app, app_assoc, firstn_skipn. reflexivity.
    + symmetry. apply skipn_all2. rewrite length_app. simpl. lia.
    + lia.
    + rewrite !sent_app, Hs. unfold sent. cbn [map concat batch_of op].
      rewrite !app_nil_r, Hb. now rewrite app_assoc, firstn_skipn.
  - apply committed_count_keep in Hfull.
    unfold ret, between_records.
    cbn [disk conn stdout oplog batch_data total_records append_record rows indexed].
    rewrite length_app. cbn [length].
    replace (length recs + 1) with (S (length recs)) by lia.
    rewrite Hfull. fold k.
    assert (Hfst : firstn k (recs ++ [(u, phone)]) = firstn k recs).
    { rewrite firstn_app. replace (k - length recs) with 0 by lia.
      simpl. apply app_nil_r. }
    rewrite Hfst. repeat split; try assumption.
    + rewrite Hb, skipn_app. replace (k - length recs) with 0 by lia. reflexivity.
    + lia.
Qed.

Lemma records_loop_no_faults ms : forall recs st,
  hoare (between_records batch_size base recs st)
        (for_each (process_record no_faults batch_size) ms st)
        (between_records batch_size base (recs ++ map (fun m => (snd m, fst m)) ms))
        (fun _ _ => False).
Proof.
  intros recs st.
  pose (I := fun (done : list (text * text)) =>
               between_records batch_size base (recs ++ map (fun m => (snd m, fst m)) done)).
  eapply hoare_conseq with (P' := I [] st) (Q' := I ([] ++ ms)) (E' := fun _ _ => False).
  - apply hoare_for_each. intros done x s. unfold I.
    rewrite map_app, app_assoc. simpl. apply process_record_no_faults.
  - unfold I. simpl. intros w. now rewrite app_nil_r.
  - auto.
  - auto.
Qed.

Lemma between_records_print recs st w m :
  between_records batch_size base recs st w ->
  between_records batch_size base recs st
    {| disk := disk w; conn := conn w; stdout := stdout w ++ [m]; oplog := oplog w |}.
Proof. unfold between_records. simpl. tauto. Qed.

(** The loop over the files: it stops at the first file that cannot be
    read, with the records of the files before it processed. *)
Lemma files_loop_no_faults files : forall recs st w,
  between_records batch_size base recs st w ->
  let recs' := recs ++ records_of unicode_decimal (fst (contents_until_error files)) in
  match for_each (process_file unicode_decimal no_faults batch_size) files st w with
  | (Ok st', w') =>
    snd (contents_until_error files) = None /\ between_records batch_size base recs' st' w'
  | (Raise e, w') =>
    snd (contents_until_error files) = Some e /\
    exists st', between_records batch_size base recs' st' w'
  end.
Proof.
  induction files as [|e files IH]; intros recs st w Hinv; simpl.
  - unfold records_of. simpl. rewrite app_nil_r. auto.
  - unfold bind at 1. unfold process_file at 1. unfold bind at 1. simpl print.
    cbv beta iota. unfold bind at 1. unfold open_and_read.
    destruct (state e) as [raw| |]; simpl.
    + pose proof (records_loop_no_faults (findall unicode_decimal (read_text raw)) recs st
                    _ (between_records_print _ _ _ (MsgProcessing (name e)) Hinv)) as Hloop.
      destruct (for_each (process_record no_faults batch_size)
                  (findall unicode_decimal (read_text raw)) st _) as [[st1|x] w1];
        [|contradiction].
      specialize (IH _ st1 w1 Hloop).
      destruct (contents_until_error files) as [cs err]. simpl in *.
      unfold records_of in *. simpl. rewrite map_app, app_assoc. exact IH.
    + unfold records_of. simpl. rewrite app_nil_r. split; [reflexivity|].
      exists st. now apply between_records_print.
    + unfold records_of. simpl. rewrite app_nil_r. split; [reflexivity|].
      exists st. now apply between_records_print.
Qed.

End NoFaults.

Section NoFaultsRun.

Variable unicode_decimal : char -> bool.
Variable fs : filesystem.
Variable batch_size : Z.

Lemma contents_until_error_exn files e :
  snd (contents_until_error files) = Some e ->
  e = FileNotFoundError \/ e = OtherOSError.
Proof.
  induction files as [|x files IH]; simpl; [discriminate|].
  destruct (state x); simpl.
  - destruct (contents_until_error files). exact IH.
  - intros [= <-]. auto.
  - intros [= <-]. auto.
Qed.

(** Opening the connection and creating the schema. *)
Lemma prelude_no_faults {A} (k : M A) d out :
  (connect no_faults ;; setup_database no_faults ;; k)%imp
    {| disk := d; conn := NoConnection; stdout := out; oplog := [] |} =
  k {| disk := Some {| rows := rows_of d; indexed := true |};
       conn := Connected None;
       stdout := out ++ [MsgSchemaCreated];
       oplog := [{| op := OpConnect; raised := false |};
                 {| op := OpCreateTable; raised := false |};
                 {| op := OpCreateIndex; raised := false |};
                 {| op := OpCommit; raised := false |}] |}.
Proof. destruct d as [t|]; reflexivity. Qed.

Lemma between_records_start base w :
  conn w = Connected None ->
  disk w = Some {| rows := base; indexed := true |} ->
  sent (oplog w) = [] ->
  between_records batch_size base [] {| total_records := 0; batch_data := [] |} w.
Proof.
  intros Hc Hd Hs. unfold between_records. simpl length.
  assert (E : committed_count batch_size 0 = 0)
    by (pose proof (committed_count_le batch_size 0); lia).
  rewrite E. simpl. auto.
Qed.

(** What the loop over the files, the last flush and the report leave. *)
Lemma import_files_no_faults base files w :
  conn w = Connected None ->
  disk w = Some {| rows := base; indexed := true |} ->
  sent (oplog w) = [] ->
  let recs := records_of unicode_decimal (fst (contents_until_error files)) in
  match import_files unicode_decimal no_faults batch_size files w with
  | (Ok _, w') =>
    snd (contents_until_error files) = None /\
    conn w' = Connected None /\
    disk w' = Some {| rows := upsert_all base recs; indexed := true |} /\
    sent (oplog w') = recs
  | (Raise e, w') =>
    snd (contents_until_error files) = Some e /\
    conn w' = Connected None /\
    let p := firstn (committed_count batch_size (length recs)) recs in
    disk w' = Some {| rows := upsert_all base p; indexed := true |} /\
    sent (oplog w') = p
  end.
Proof.
  intros Hc Hd Hs recs.
  pose proof (files_loop_no_faults unicode_decimal batch_size base files [] _ w
                (between_records_start base w Hc Hd Hs)) as Hloop.
  unfold import_files, bind at 1.
  destruct (for_each (process_file unicode_decimal no_faults batch_size) files _ w)
    as [[st'|e] w']; simpl app in Hloop; fold recs in Hloop.
  - destruct Hloop as (Herr & Hc' & Hd' & Hb' & Ht' & Hs').
    set (k := committed_count batch_size (length recs)) in *.
    destruct (batch_data st') as [|r b] eqn:Hbatch.
    + assert (Hall : firstn k recs = recs).
      { rewrite <- (firstn_skipn k recs) at 2. rewrite <- Hb'. now rewrite app_nil_r. }
      rewrite Hall in *. simpl. auto.
    + unfold bind. rewrite (executemany_no_faults _ w' _ Hc' Hd').
      erewrite commit_no_faults by reflexivity.
      unfold print. cbn [disk conn stdout oplog rows indexed].
      repeat split; try assumption.
      * rewrite Hb', <- upsert_all_app, firstn_skipn. reflexivity.
      * rewrite !sent_app, Hs'. unfold sent. cbn [map concat batch_of op].
        rewrite !app_nil_r, Hb'. apply firstn_skipn.
  - destruct Hloop as (Herr & st' & Hc' & Hd' & Hb' & Ht' & Hs'). auto.
Qed.

(** The run from the connection to the end of the [try]. *)
Lemma import_body_no_faults d out :
  let recs := all_records unicode_decimal fs in
  match import_body unicode_decimal fs no_faults batch_size
          {| disk := d; conn := NoConnection; stdout := out; oplog := [] |} with
  | (Ok _, w') =>
    snd (contents_until_error (selected fs)) = None /\
    conn w' = Connected None /\
    disk w' = Some {| rows := upsert_all (rows_of d) recs; indexed := true |} /\
    sent (oplog w') = recs
  | (Raise e, w') =>
    snd (contents_until_error (selected fs)) = Some e /\
    conn w' = Connected None /\
    let p := firstn (committed_count batch_size (length recs)) recs in
    disk w' = Some {| rows := upsert_all (rows_of d) p; indexed := true |} /\
    sent (oplog w') = p
  end.
Proof.
  intros recs. unfold import_body. rewrite prelude_no_faults.
  unfold recs, all_records, selected.
  destruct (glob (data_dir fs)) as [|e files].
  - unfold bind at 1. simpl print. cbv beta iota.
    destruct (glob (cwd fs)) as [|e files].
    + simpl. auto.
    + apply import_files_no_faults; reflexivity.
  - apply import_files_no_faults; reflexivity.
Qed.

(** The whole run. *)
Lemma run_no_faults d :
  let recs := all_records unicode_decimal fs in
  let '(r, w) := parse_and_import_data_with unicode_decimal fs no_faults batch_size
                   (initial_world d) in
  conn w = Closed /\
  match snd (contents_until_error (selected fs)) with
  | None =>
    r = Ok tt /\
    disk w = Some {| rows := upsert_all (rows_of d) recs; indexed := true |} /\
    sent (oplog w) = recs
  | Some e =>
    r = Raise (match e with FileNotFoundError => SystemExit 1 | _ => e end) /\
    let p := firstn (committed_count batch_size (length recs)) recs in
    disk w = Some {| rows := upsert_all (rows_of d) p; indexed := true |} /\
    sent (oplog w) = p
  end.
Proof.
  intros recs. unfold parse_and_import_data_with, bind at 1. simpl print.
  cbv beta iota. unfold initial_world. simpl.
  unfold try_finally, try_except.
  pose proof (import_body_no_faults d ([] ++ [MsgConnecting])) as Hbody.
  simpl app in Hbody.
  destruct (import_body unicode_decimal fs no_faults batch_size _) as [[[]|e] w'].
  - destruct Hbody as (Herr & Hc & Hd & Hs). rewrite Herr.
    unfold close_if_connected. rewrite Hc. simpl. auto.
  - destruct Hbody as (Herr & Hc & Hd & Hs). rewrite Herr.
    destruct (contents_until_error_exn _ _ Herr) as [-> | ->]; simpl;
      unfold close_if_connected; rewrite Hc; simpl; auto.
Qed.

End NoFaultsRun.

(** ** The properties of the pipeline *)

Section Properties.

Variable unicode_decimal : char -> bool.

Lemma findall_single a b :
  digits unicode_decimal a -> digits unicode_decimal b ->
  findall unicode_decimal (a ++ HYPHENS4 ++ b) = [(a, b)].
Proof.
  intros Ha Hb. apply (scan_complete unicode_decimal); [|lia].
  apply nm_match with (rest := []).
  - split; [now rewrite app_nil_r | auto].
  - exact I.
  - constructor.
Qed.

Lemma ingest_no_faults fs bs d :
  let recs := all_records unicode_decimal fs in
  ingest unicode_decimal fs bs d =
  Some {| rows := upsert_all (rows_of d)
                    (match snd (contents_until_error (selected fs)) with
                     | None => recs
                     | Some _ => firstn (committed_count bs (length recs)) recs
                     end);
          indexed := true |}.
Proof.
  intros recs. unfold ingest.
  pose proof (run_no_faults unicode_decimal fs bs d) as H. cbv zeta in H.
  destruct (parse_and_import_data_with unicode_decimal fs no_faults bs (initial_world d))
    as [r w].
  destruct H as [_ H]. simpl snd.
  destruct (snd (contents_until_error (selected fs))); tauto.
Qed.

(** C1. Every pair [(A, B)] the extractor finds, [A] left and [B] right
    of the hyphens, is handed to the store as the row with [uid = B] and
    [phone_number = A]: the records passed to [executemany] are the
    matches of the files, in order, each one reversed; and a text
    [A----B] of two digit strings has the one match [(A, B)]. *)
Theorem records_are_reversed fs bs d :
  all_readable fs ->
  let w := snd (parse_and_import_data_with unicode_decimal fs no_faults bs (initial_world d)) in
  sent (oplog w) =
    map (fun m => (snd m, fst m))
        (concat (map (findall unicode_decimal) (fst (contents_until_error (selected fs)))))
  /\ (forall r, In r (sent (oplog w)) ->
        exists a b, In (a, b) (concat (map (findall unicode_decimal)
                                         (fst (contents_until_error (selected fs)))))
                    /\ uid r = b /\ phone_number r = a)
  /\ (forall a b, digits unicode_decimal a -> digits unicode_decimal b ->
        findall unicode_decimal (a ++ HYPHENS4 ++ b) = [(a, b)]).
Proof.
  intros Hread w.
  pose proof (run_no_faults unicode_decimal fs bs d) as H. cbv zeta in H.
  unfold w. clear w.
  destruct (parse_and_import_data_with unicode_decimal fs no_faults bs (initial_world d))
    as [r w].
  destruct H as [_ H]. unfold all_readable in Hread. rewrite Hread in H.
  destruct H as (_ & _ & Hs). simpl snd.
  split; [exact Hs|]. split; [|apply findall_single].
  intros x Hx. rewrite Hs in Hx. unfold all_records, records_of in Hx.
  apply in_map_iff in Hx. destruct Hx as ([a b] & <- & Hin).
  exists a, b. auto.
Qed.

(** C2. When a uid occurs more than once in the inputs, the table holds
    one row for it after the run, with the phone number of the occurrence
    that comes last in file order, then in order of appearance.  The
    whole table is: the old rows whose uid is not in the inputs, then
    the last record of each uid. *)
Theorem last_occurrence_wins fs bs d before u v after :
  all_readable fs ->
  all_records unicode_decimal fs = before ++ (u, v) :: after ->
  has_uid u after = false ->
  filter (same_uid u) (rows_of (ingest unicode_decimal fs bs d)) = [(u, v)] /\
  rows_of (ingest unicode_decimal fs bs d) =
    filter (fun r => negb (has_uid (uid r) (all_records unicode_decimal fs))) (rows_of d)
    ++ last_writes (all_records unicode_decimal fs).
Proof.
  intros Hread Hrecs Hlast. rewrite ingest_no_faults.
  unfold all_readable in Hread. rewrite Hread. simpl rows_of. split.
  - rewrite Hrecs. now apply upsert_all_last_write_wins.
  - apply upsert_all_last_writes.
Qed.

(** C3. Running the script a second time over the same files leaves
    the database as the first run left it, whatever it held before. *)
Theorem ingest_idempotent fs bs d :
  ingest unicode_decimal fs bs (ingest unicode_decimal fs bs d) =
  ingest unicode_decimal fs bs d.
Proof.
  rewrite (ingest_no_faults fs bs (ingest unicode_decimal fs bs d)).
  rewrite (ingest_no_faults fs bs d). cbv zeta. simpl rows_of.
  now rewrite upsert_all_idempotent.
Qed.

(** C4. The table after the run does not depend on the batch size: for
    any two thresholds the runs leave the same rows, those of upserting
    the records one at a time. *)
Theorem batch_size_is_not_observable fs bs1 bs2 d :
  all_readable fs ->
  ingest unicode_decimal fs bs1 d = ingest unicode_decimal fs bs2 d /\
  ingest unicode_decimal fs bs1 d =
    Some {| rows := unbatched_upsert (rows_of d) (all_records unicode_decimal fs);
            indexed := true |}.
Proof.
  intros Hread. rewrite !ingest_no_faults. cbv zeta.
  unfold all_readable in Hread. rewrite Hread.
  now rewrite unbatched_upsert_upsert_all.
Qed.

Lemma import_body_without_files fs bs d out :
  glob (data_dir fs) = [] -> glob (cwd fs) = [] ->
  import_body unicode_decimal fs no_faults bs
    {| disk := d; conn := NoConnection; stdout := out; oplog := [] |} =
  (Ok tt,
   {| disk := Some {| rows := rows_of d; indexed := true |};
      conn := Connected None;
      stdout := ((out ++ [MsgSchemaCreated]) ++ [MsgNoFilesInDataDir]) ++ [MsgNoFilesInCwd];
      oplog := [{| op := OpConnect; raised := false |};
                {| op := OpCreateTable; raised := false |};
                {| op := OpCreateIndex; raised := false |};
                {| op := OpCommit; raised := false |}] |}).
Proof.
  intros Hdata Hcwd. unfold import_body. rewrite prelude_no_faults, Hdata, Hcwd.
  reflexivity.
Qed.

Lemma run_without_files fs bs d :
  glob (data_dir fs) = [] -> glob (cwd fs) = [] ->
  parse_and_import_data_with unicode_decimal fs no_faults bs (initial_world d) =
  (Ok tt,
   {| disk := Some {| rows := rows_of d; indexed := true |};
      conn := Closed;
      stdout := [MsgConnecting; MsgSchemaCreated; MsgNoFilesInDataDir; MsgNoFilesInCwd];
      oplog := [{| op := OpConnect; raised := false |};
                {| op := OpCreateTable; raised := false |};
                {| op := OpCreateIndex; raised := false |};
                {| op := OpCommit; raised := false |}] |}).
Proof.
  intros Hdata Hcwd.
  unfold parse_and_import_data_with, bind, print, initial_world, try_finally, try_except.
  cbn [disk conn stdout oplog].
  rewrite (import_body_without_files fs bs d _ Hdata Hcwd). reflexivity.
Qed.

(** C6, as the script has it. When neither the data directory nor the
    working directory holds a matching file, the run ends with status 0:
    the schema is there, no record was handed to the store and the rows
    are those the table had; the script prints its two warnings and no
    total. *)
Theorem no_files_is_a_successful_no_op fs d :
  glob (data_dir fs) = [] -> glob (cwd fs) = [] ->
  let '(r, w) := parse_and_import_data unicode_decimal fs no_faults (initial_world d) in
  exit_status r = 0%Z /\
  disk w = Some {| rows := rows_of d; indexed := true |} /\
  sent (oplog w) = [] /\
  conn w = Closed /\
  stdout w = [MsgConnecting; MsgSchemaCreated; MsgNoFilesInDataDir; MsgNoFilesInCwd].
Proof.
  intros Hdata Hcwd. unfold parse_and_import_data.
  rewrite (run_without_files fs BATCH_SIZE d Hdata Hcwd). repeat split.
Qed.

(** C7. Without a working directory the run is fatal, with or without
    the data directory: the database file, a relative path, cannot be
    opened, [sqlite3.connect] raises, the error is printed and the
    script exits with status 1 whatever else the engine would do, and
    nothing is read or written.  When the working directory is there
    and no file matches, the script exits with status 0, with or
    without the data directory. *)
Theorem missing_directories_are_fatal fs faults d :
  cwd fs = None ->
  let '(status, w) := main unicode_decimal fs faults d in
  status = 1%Z /\ status <> 0%Z /\
  stdout w = [MsgConnecting; MsgSqliteError] /\
  oplog w = [{| op := OpConnect; raised := true |}] /\
  disk w = d /\
  conn w = NoConnection /\
  forall dd entries,
    glob dd = [] -> glob (Some entries) = [] ->
    fst (main unicode_decimal {| data_dir := dd; cwd := Some entries |} no_faults d) = 0%Z.
Proof.
  intros Hcwd.
  assert (E : main unicode_decimal fs faults d =
              (1%Z, {| disk := d; conn := NoConnection;
                       stdout := [MsgConnecting; MsgSqliteError];
                       oplog := [{| op := OpConnect; raised := true |}] |})).
  { unfold main, engine, parse_and_import_data, parse_and_import_data_with, bind at 1,
      print at 1, initial_world. rewrite Hcwd. cbv beta iota.
    cbn [disk conn stdout oplog app].
    unfold try_finally, try_except, import_body, bind at 1, connect, log_op.
    cbn [oplog length disk conn stdout app]. reflexivity. }
  rewrite E. repeat split; try discriminate.
  intros dd entries Hdd Hentries. unfold main, engine, parse_and_import_data.
  cbn [cwd].
  now rewrite (run_without_files {| data_dir := dd; cwd := Some entries |}
                 BATCH_SIZE d Hdd Hentries).
Qed.

End Properties.

(** ** Undecodable files *)

Section Decoding.

Variable unicode_decimal : char -> bool.

Lemma decode_ignore_invalid_start b post :
  invalid_start b = true ->
  Utf8.decode_ignore (b :: post) = Utf8.decode_ignore post.
Proof.
  unfold invalid_start. intros H. cbn [Utf8.decode_ignore].
  destruct (b <? 0x80)%N eqn:H1; [apply N.ltb_lt in H1|].
  - apply orb_true_iff in H. destruct H as [H | H].
    + apply andb_true_iff in H. destruct H as [H _]. apply N.leb_le in H. lia.
    + apply N.leb_le in H. lia.
  - destruct (b <? 0xC2)%N eqn:H2; [reflexivity|].
    rewrite andb_false_r in H. simpl in H. apply N.leb_le in H.
    destruct (b <? 0xE0)%N eqn:H3; [apply N.ltb_lt in H3; lia|].
    destruct (b <? 0xF0)%N eqn:H4; [apply N.ltb_lt in H4; lia|].
    destruct (b <? 0xF5)%N eqn:H5; [apply N.ltb_lt in H5; lia|].
    reflexivity.
Qed.

(** The [ignore] handler: an invalid byte between plain bytes is
    dropped, the text before it is kept and decoding goes on behind it. *)
Lemma decode_ignore_drops pre b post :
  ascii_bytes pre -> invalid_start b = true ->
  Utf8.decode_ignore (pre ++ b :: post) = pre ++ Utf8.decode_ignore post.
Proof.
  intros Hpre Hb. induction Hpre as [|c pre Hc _ IH].
  - now apply decode_ignore_invalid_start.
  - simpl app. cbn [Utf8.decode_ignore]. rewrite Hc. now rewrite IH.
Qed.

Lemma contents_all_readable files :
  (forall e, In e files -> exists raw, state e = Readable raw) ->
  snd (contents_until_error files) = None /\
  forall e raw, In e files -> state e = Readable raw ->
                In (read_text raw) (fst (contents_until_error files)).
Proof.
  induction files as [|x files IH]; intros Hall; simpl.
  - split; [reflexivity | contradiction].
  - destruct (Hall x (or_introl eq_refl)) as [raw0 Hx]. rewrite Hx.
    destruct IH as [Hnone Hin]; [intros e He; apply Hall; now right|].
    destruct (contents_until_error files) as [cs err]. simpl in *.
    split; [assumption|]. intros e raw [<- | He] Hs.
    + rewrite Hx in Hs. injection Hs as <-. now left.
    + right. now apply Hin with (e := e).
Qed.

(** When every selected file can be opened the run ends normally, and
    every match of what was read from a file is handed to the store and
    has its row. *)
Lemma readable_files_are_imported fs bs d :
  (forall e, In e (selected fs) -> exists raw, state e = Readable raw) ->
  let '(r, w) := parse_and_import_data_with unicode_decimal fs no_faults bs (initial_world d) in
  r = Ok tt /\
  (forall e raw m,
      In e (selected fs) -> state e = Readable raw ->
      In m (findall unicode_decimal (read_text raw)) ->
      In (snd m, fst m) (sent (oplog w)) /\
      has_uid (snd m) (rows_of (disk w)) = true).
Proof.
  intros Hall. destruct (contents_all_readable _ Hall) as [Hnone Hin].
  pose proof (run_no_faults unicode_decimal fs bs d) as H. cbv zeta in H.
  destruct (parse_and_import_data_with unicode_decimal fs no_faults bs (initial_world d))
    as [r w].
  destruct H as [_ H]. rewrite Hnone in H. destruct H as (Hr & Hd & Hs).
  split; [assumption|].
  intros e raw m He Hst Hm.
  assert (Hrec : In (snd m, fst m) (all_records unicode_decimal fs)).
  { unfold all_records, records_of.
    apply (in_map (fun m => (snd m, fst m))). apply in_concat.
    exists (findall unicode_decimal (read_text raw)). split; [|assumption].
    apply in_map. now apply Hin with (e := e). }
  split; [now rewrite Hs|].
  rewrite Hd. simpl rows_of.
  apply in_split in Hrec. destruct Hrec as (p1 & p2 & Hrec). rewrite Hrec.
  destruct (has_uid (snd m) (upsert_all (rows_of d) (p1 ++ (snd m, fst m) :: p2))) eqn:E;
    [reflexivity|].
  rewrite upsert_all_app in E. simpl in E.
  change (fold_left insert_or_replace p2 ?x) with (upsert_all x p2) in E.
  rewrite has_uid_upsert_all in E by apply has_uid_insert. discriminate.
Qed.

End Decoding.

(** ** Runs in which the storage engine may fail *)

Section Faults.

Variable unicode_decimal : char -> bool.
Variable fs : filesystem.
Variable faults : nat -> option nat.
Variable batch_size : Z.
Variable base : list record.

Lemma replay_snoc log e : replay (log ++ [e]) = log_step (replay log) e.
Proof. unfold replay. now rewrite fold_left_app. Qed.

Lemma clean_snoc log e : clean log -> raised e = false -> clean (log ++ [e]).
Proof. intros H He. apply Forall_app. split; [assumption | now constructor]. Qed.

Lemma failed_snoc log o : clean log -> failed_last (log ++ [{| op := o; raised := true |}]).
Proof. intros H. exists log, {| op := o; raised := true |}. auto. Qed.

Lemma committed_snoc_raised log o :
  committed (log ++ [{| op := o; raised := true |}]) = committed log.
Proof. unfold committed. now rewrite replay_snoc. Qed.

Lemma connect_spec :
  hoare (fun w => conn w = NoConnection /\ oplog w = [] /\ rows_of (disk w) = base)
        (connect faults) (fun _ => idle base) (aborted base).
Proof.
  intros w (Hc & Hl & Hd). unfold connect, log_op. rewrite Hl. simpl length. simpl app.
  destruct (faults 0).
  - unfold aborted, durable. simpl. rewrite Hd. split; [reflexivity|].
    apply (failed_snoc [] OpConnect). constructor.
  - unfold idle, in_transaction, durable. simpl. rewrite Hd.
    repeat split; try reflexivity.
    + exists None. auto.
    + repeat constructor.
Qed.

(** A statement that opens no transaction and leaves the rows alone. *)
Lemma ddl_spec o run :
  (forall d v, run d = Some v -> rows_of v = rows_of d) ->
  (forall b, o <> OpExecuteMany b) -> o <> OpCommit ->
  hoare (idle base) (statement faults o false run (fun _ d => d))
        (fun _ => idle base) (aborted base).
Proof.
  intros Hrun Hem Hco w (Hc & _ & Hclean & Hp & Hd).
  unfold statement. rewrite Hc.
  assert (Hstep : forall r, replay (oplog w ++ [{| op := o; raised := r |}]) = replay (oplog w)).
  { intros r. rewrite replay_snoc. unfold log_step. simpl.
    destruct r; [reflexivity|]. destruct o; try reflexivity.
    - now elim (Hem batch).
    - now elim Hco. }
  destruct (faults (length (oplog w))).
  - unfold aborted, durable, committed, log_op. simpl. rewrite Hstep.
    split; [assumption | now apply failed_snoc].
  - destruct (run (disk w)) as [v|] eqn:Hv.
    + unfold idle, in_transaction, durable, committed, log_op. simpl. rewrite Hstep.
      rewrite (Hrun _ _ Hv). repeat split; try assumption.
      * exists None. auto.
      * now apply clean_snoc.
    + unfold aborted, durable, committed, log_op. simpl. rewrite Hstep.
      split; [assumption | now apply failed_snoc].
Qed.

Lemma executemany_spec b :
  hoare (idle base) (executemany faults b) (fun _ => in_transaction base b) (aborted base).
Proof.
  intros w (Hc & _ & Hclean & Hp & Hd).
  unfold executemany, statement. rewrite Hc.
  destruct (faults (length (oplog w))).
  - unfold aborted, durable, log_op. simpl. rewrite committed_snoc_raised.
    split; [assumption | now apply failed_snoc].
  - destruct (insert_many b (disk w)) as [v|] eqn:Hv.
    + unfold in_transaction, durable, committed, log_op. simpl.
      rewrite replay_snoc. unfold log_step. simpl. rewrite Hp. simpl.
      repeat split; try assumption.
      * exists (Some v). split; [reflexivity|].
        unfold insert_many in Hv. destruct (disk w) as [t|]; [|discriminate].
        injection Hv as <-. reflexivity.
      * now apply clean_snoc.
    + unfold aborted, durable, log_op. simpl. rewrite committed_snoc_raised.
      split; [assumption | now apply failed_snoc].
Qed.

Lemma commit_spec p :
  hoare (in_transaction base p) (commit faults) (fun _ => idle base) (aborted base).
Proof.
  intros w ((txn & Hc & Htxn) & Hclean & Hp & Hd).
  unfold commit. rewrite Hc.
  destruct (faults (length (oplog w))).
  - unfold aborted, durable, log_op. simpl. rewrite committed_snoc_raised.
    split; [assumption | now apply failed_snoc].
  - assert (Hrep : replay (oplog w ++ [{| op := OpCommit; raised := false |}])
                   = (committed (oplog w) ++ p, [])).
    { rewrite replay_snoc. unfold log_step, committed. simpl. now rewrite Hp. }
    unfold durable in Hd.
    destruct txn as [v|]; unfold idle, in_transaction, durable, committed, log_op; simpl;
      rewrite Hrep; simpl; repeat split; try reflexivity; try (now apply clean_snoc).
    + exists None. auto.
    + rewrite Htxn, Hd. symmetry. apply upsert_all_app.
    + exists None. auto.
    + subst p. now rewrite app_nil_r.
Qed.

Lemma print_idle m : hoare (idle base) (print m) (fun _ => idle base) (aborted base).
Proof. apply hoare_print. intros w H. exact H. Qed.

Lemma flush_spec b :
  hoare (idle base) (executemany faults b ;; commit faults)%imp
        (fun _ => idle base) (aborted base).
Proof.
  eapply hoare_bind; [apply executemany_spec|]. intros ?. apply commit_spec.
Qed.

Lemma flush_if_full_spec st :
  hoare (idle base) (flush_if_full faults batch_size st) (fun _ => idle base) (aborted base).
Proof.
  unfold flush_if_full.
  destruct (Z.of_nat (length (batch_data st)) >=? batch_size)%Z.
  - eapply hoare_bind; [apply executemany_spec|]. intros ?.
    eapply hoare_bind; [apply commit_spec|]. intros ?.
    eapply hoare_bind; [apply print_idle|]. intros ?.
    apply hoare_ret. auto.
  - apply hoare_ret. auto.
Qed.

Lemma records_loop_spec ms st :
  hoare (idle base) (for_each (process_record faults batch_size) ms st)
        (fun _ => idle base) (aborted base).
Proof.
  apply (hoare_for_each (process_record faults batch_size) (fun _ _ => idle base) (aborted base)
           (fun _ _ s => flush_if_full_spec _) ms [] st).
Qed.

Lemma open_and_read_spec e :
  hoare (idle base) (open_and_read e) (fun _ => idle base) (aborted base).
Proof.
  unfold open_and_read. intros w H. pose proof H as (_ & _ & Hclean & _ & Hd).
  destruct (state e); simpl; [assumption | split; assumption | split; assumption].
Qed.

Lemma process_file_spec st e :
  hoare (idle base) (process_file unicode_decimal faults batch_size st e)
        (fun _ => idle base) (aborted base).
Proof.
  unfold process_file.
  eapply hoare_bind; [apply print_idle|]. intros ?.
  eapply hoare_bind; [apply open_and_read_spec|]. intros content.
  apply records_loop_spec.
Qed.

Lemma import_files_spec files :
  hoare (idle base) (import_files unicode_decimal faults batch_size files)
        (fun _ => idle base) (aborted base).
Proof.
  unfold import_files.
  eapply hoare_bind.
  - apply (hoare_for_each (process_file unicode_decimal faults batch_size)
             (fun _ _ => idle base) (aborted base) (fun _ x s => process_file_spec s x) files []).
  - intros st. eapply hoare_bind; [|intros ?; apply print_idle].
    destruct (batch_data st); [apply hoare_ret; auto | apply flush_spec].
Qed.

Lemma setup_database_spec :
  hoare (idle base) (setup_database faults) (fun _ => idle base) (aborted base).
Proof.
  unfold setup_database.
  eapply hoare_bind.
  { apply ddl_spec; try discriminate.
    intros [t|] v [= <-]; reflexivity. }
  intros ?. eapply hoare_bind.
  { apply ddl_spec; try discriminate.
    intros [t|] v; simpl; [intros [= <-]; reflexivity | discriminate]. }
  intros ?. eapply hoare_bind.
  { intros w H. apply (commit_spec [] w). apply H. }
  intros ?. apply print_idle.
Qed.

Lemma import_body_spec :
  hoare (fun w => conn w = NoConnection /\ oplog w = [] /\ rows_of (disk w) = base)
        (import_body unicode_decimal fs faults batch_size) (fun _ => idle base) (aborted base).
Proof.
  unfold import_body.
  eapply hoare_bind; [apply connect_spec|]. intros ?.
  eapply hoare_bind; [apply setup_database_spec|]. intros ?.
  destruct (glob (data_dir fs)).
  - eapply hoare_bind; [apply print_idle|]. intros ?.
    destruct (glob (cwd fs)).
    + eapply hoare_bind; [apply print_idle|]. intros ?. apply hoare_ret. auto.
    + apply import_files_spec.
  - apply import_files_spec.
Qed.

Lemma handlers_spec e :
  hoare (aborted base e) (handlers e) (fun _ _ => False) (reported base).
Proof.
  intros w [Hd H]. unfold reported, durable in *.
  destruct e; simpl in *.
  - split; [assumption|]. right. repeat split; try assumption.
    apply in_or_app. right. now left.
  - split; [assumption|]. now left.
  - split; [assumption|]. now left.
  - contradiction.
Qed.

Lemma close_spec (P : world -> Prop) :
  (forall w c, P w ->
     P {| disk := disk w; conn := c; stdout := stdout w; oplog := oplog w |}) ->
  hoare P close_if_connected (fun _ w => released w /\ P w) (fun _ _ => False).
Proof.
  intros HP w Hw. unfold close_if_connected, released.
  destruct (conn w) eqn:Hc; simpl.
  - rewrite Hc. auto.
  - split; [exact I | now apply HP].
  - split; [exact I | now apply HP].
Qed.

Lemma try_spec :
  hoare (fun w => conn w = NoConnection /\ oplog w = [] /\ rows_of (disk w) = base)
        (try_finally (try_except (import_body unicode_decimal fs faults batch_size) handlers)
                     close_if_connected)
        (fun _ w => released w /\ durable base w /\ clean (oplog w))
        (fun e w => released w /\ reported base e w).
Proof.
  eapply hoare_try_finally
    with (Q' := fun _ w => durable base w /\ clean (oplog w)) (E' := reported base).
  - apply hoare_try_except with (E' := aborted base).
    + eapply hoare_conseq; [apply import_body_spec | auto | | auto].
      intros ? w (_ & _ & Hclean & _ & Hd). auto.
    + intros e. eapply hoare_conseq; [apply handlers_spec | auto | | auto].
      intros ? w [].
  - intros ?. apply close_spec. auto.
  - intros e. apply close_spec. auto.
Qed.

Lemma clean_not_raised log :
  clean log -> ~ Exists (fun e => raised e = true) log.
Proof.
  intros Hc Hex. apply Exists_exists in Hex. destruct Hex as (e & He & Hr).
  unfold clean in Hc. rewrite Forall_forall in Hc. specialize (Hc e He). congruence.
Qed.

End Faults.

(** C8. Whatever call into the storage engine raises, that call is the
    last one of the run (nothing is retried, the batch in hand is never
    committed), the error is printed and the script exits with status 1;
    on every path the connection is closed, and the table holds the rows
    it had with the committed batches upserted, and nothing else. *)
Theorem storage_error_aborts_the_run unicode_decimal fs faults batch_size d :
  let '(r, w) := parse_and_import_data_with unicode_decimal fs faults batch_size
                   (initial_world d) in
  released w /\
  rows_of (disk w) = upsert_all (rows_of d) (committed (oplog w)) /\
  (Exists (fun e => raised e = true) (oplog w) ->
   failed_last (oplog w) /\
   r = Raise (SystemExit 1) /\
   exit_status r <> 0%Z /\
   In MsgSqliteError (stdout w)).
Proof.
  unfold parse_and_import_data_with, bind at 1. simpl print. cbv beta iota.
  pose proof (try_spec unicode_decimal fs faults batch_size (rows_of d)
                {| disk := d; conn := NoConnection; stdout := [MsgConnecting]; oplog := [] |})
    as H.
  simpl in H. specialize (H (conj eq_refl (conj eq_refl eq_refl))).
  unfold initial_world. simpl.
  destruct (try_finally _ _ _) as [[[]|e] w].
  - destruct H as (Hrel & Hd & Hclean). repeat split; try assumption;
      now apply clean_not_raised in H.
  - destruct H as (Hrel & Hd & [Hclean | (Hf & -> & Hin)]).
    + repeat split; try assumption; now apply clean_not_raised in H.
    + repeat split; try assumption. simpl. discriminate.
Qed.

(** ** The buffer *)

Section BufferStates.

Variable unicode_decimal : char -> bool.
Variable faults : nat -> option nat.
Variable batch_size : Z.

Hypothesis batch_size_positive : (0 < batch_size)%Z.





Lemma last_cons_default {A} (l : list A) : forall x d d',
  last (x :: l) d = last (x :: l) d'.
Proof.
  induction l as [|y l IH]; intros x d d'; [reflexivity|].
  change (last (y :: l) d = last (y :: l) d'). apply IH.
Qed.

(** The states listed are those the loop goes through: the last one is
    the value of the loop variables when the loop is left. *)
Lemma record_states_last ms : forall st w st' w',
  for_each (process_record faults batch_size) ms st w = (Ok st', w') ->
  snd (last (record_states faults batch_size ms st w) (AfterCheck, st)) = st'.
Proof.
  induction ms as [|m ms IH]; intros st w st' w'; simpl.
  - unfold ret. now intros [= <- <-].
  - unfold bind, process_record.
    destruct (flush_if_full faults batch_size (append_record st m) w) as [[st2|e] w2];
      [|discriminate].
    intros H. specialize (IH _ _ _ _ H).
    destruct (record_states faults batch_size ms st2 w2) as [|x l] eqn:Hrs; [exact IH|].
    rewrite <- IH.
    change (snd (last (x :: l) (AfterCheck, st)) = snd (last (x :: l) (AfterCheck, st2))).
    f_equal. apply last_cons_default.
Qed.

End BufferStates.

Section BufferFlush.

Variable faults : nat -> option nat.
Variable batch_size : Z.







End BufferFlush.


(** ** Concrete runs *)

Example findall_two_lines :
  findall ascii_only
    (text_of_string "5551234----9001" ++ [LF] ++ text_of_string "5555678----9001" ++ [LF])
  = [(text_of_string "5551234", text_of_string "9001");
     (text_of_string "5555678", text_of_string "9001")].
Proof. reflexivity. Qed.

Example findall_five_hyphens :
  findall ascii_only (text_of_string "12-----34 1---2 x7----8----9") =
  [(text_of_string "7", text_of_string "8")].
Proof. reflexivity. Qed.

Example two_lines_run :
  let fs := {| data_dir := Some [file "qb1.txt" ["5551234----9001"; "5555678----9001"]%string];
               cwd := Some [] |} in
  let '(r, w) := parse_and_import_data ascii_only fs no_faults (initial_world None) in
  exit_status r = 0%Z /\
  disk w = Some {| rows := [(text_of_string "9001", text_of_string "5555678")];
                   indexed := true |} /\
  conn w = Closed /\
  stdout w = [MsgConnecting; MsgSchemaCreated; MsgProcessing (text_of_string "qb1.txt");
              MsgImportComplete 2].
Proof. vm_compute. repeat split. Qed.

Lemma digits_5551234 : digits ascii_only text_5551234.
Proof. split; [discriminate | repeat constructor]. Qed.

Lemma digits_9001 : digits ascii_only text_9001.
Proof. split; [discriminate | repeat constructor]. Qed.

Lemma records_are_reversed_witness :
  all_readable fs_one_line /\
  sent (oplog (snd (parse_and_import_data_with ascii_only fs_one_line no_faults BATCH_SIZE
                      (initial_world None))))
  = [(text_9001, text_5551234)] /\
  findall ascii_only (text_5551234 ++ HYPHENS4 ++ text_9001) = [(text_5551234, text_9001)].
Proof.
  split; [reflexivity|].
  destruct (records_are_reversed ascii_only fs_one_line BATCH_SIZE None eq_refl)
    as (Hsent & _ & Hone).
  split; [exact Hsent | exact (Hone _ _ digits_5551234 digits_9001)].
Defined.

Lemma last_occurrence_wins_witness :
  all_readable fs_two_lines /\
  all_records ascii_only fs_two_lines
  = [(text_9001, text_5551234)] ++ (text_9001, text_5555678) :: [] /\
  has_uid text_9001 [] = false /\
  filter (same_uid text_9001) (rows_of (ingest ascii_only fs_two_lines BATCH_SIZE None))
  = [(text_9001, text_5555678)] /\
  ingest ascii_only fs_two_lines BATCH_SIZE None
  = Some {| rows := [(text_9001, text_5555678)]; indexed := true |}.
Proof.
  split; [reflexivity|]. split; [reflexivity|]. split; [reflexivity|].
  split; [|reflexivity].
  exact (proj1 (last_occurrence_wins ascii_only fs_two_lines BATCH_SIZE None
                  [(text_9001, text_5551234)] text_9001 text_5555678 []
                  eq_refl eq_refl eq_refl)).
Defined.

(** C2 as it is worded fails: when a later file cannot be opened, the
    occurrence that comes last is still in the buffer and is lost.
    With a threshold of 2 the table keeps the value of the first
    occurrence; with the threshold of the script it has no row for the
    uid. *)
Lemma unreadable_file_keeps_an_older_value :
  all_records ascii_only fs_stale
  = [(text_9001, text_of_string "111"); (text_of_string "6", text_of_string "5")]
    ++ (text_9001, text_of_string "222") :: [] /\
  has_uid text_9001 [] = false /\
  filter (same_uid text_9001) (rows_of (ingest ascii_only fs_stale 2 None))
  = [(text_9001, text_of_string "111")] /\
  filter (same_uid text_9001) (rows_of (ingest ascii_only fs_stale BATCH_SIZE None)) = [] /\
  ~ (forall bs, filter (same_uid text_9001) (rows_of (ingest ascii_only fs_stale bs None))
                = [(text_9001, text_of_string "222")]).
Proof.
  split; [reflexivity|]. split; [reflexivity|]. split; [reflexivity|].
  split; [reflexivity|].
  intros H. specialize (H BATCH_SIZE). vm_compute in H. discriminate H.
Qed.

(** C4 as it is worded fails: when a file cannot be opened, what the
    table holds depends on the threshold.  With a threshold of 1 the
    record read before that file is in the table, with the threshold of
    the script it is not, and neither run leaves what upserting the
    records one at a time leaves under every threshold. *)
Lemma batch_size_is_observable_after_an_abort :
  all_records ascii_only fs_unreadable = [(text_9001, text_5551234)] /\
  ingest ascii_only fs_unreadable 1 None
  = Some {| rows := [(text_9001, text_5551234)]; indexed := true |} /\
  ingest ascii_only fs_unreadable BATCH_SIZE None = Some {| rows := []; indexed := true |} /\
  ingest ascii_only fs_unreadable 1 None <> ingest ascii_only fs_unreadable BATCH_SIZE None /\
  ingest ascii_only fs_unreadable BATCH_SIZE None
  <> Some {| rows := unbatched_upsert (rows_of None) (all_records ascii_only fs_unreadable);
             indexed := true |}.
Proof.
  split; [reflexivity|]. split; [reflexivity|]. split; [reflexivity|].
  split; vm_compute; discriminate.
Qed.

Lemma batch_size_is_not_observable_witness :
  all_readable fs_two_lines /\
  ingest ascii_only fs_two_lines 1 None = ingest ascii_only fs_two_lines 2 None /\
  ingest ascii_only fs_two_lines 1 None
  = Some {| rows := unbatched_upsert (rows_of None) (all_records ascii_only fs_two_lines);
            indexed := true |}.
Proof.
  split; [reflexivity|].
  exact (batch_size_is_not_observable ascii_only fs_two_lines 1 2 None eq_refl).
Defined.

Lemma findall_nonoverlapping_matches_witness :
  nonoverlapping_matches ascii_only
    (text_5551234 ++ HYPHENS4 ++ text_9001 ++ [LF]) [(text_5551234, text_9001)]
  /\ nonoverlapping_matches ascii_only (text_of_string "no record here") [].
Proof.
  split.
  - destruct (findall_nonoverlapping_matches ascii_only
                (text_5551234 ++ HYPHENS4 ++ text_9001 ++ [LF])
                [(text_5551234, text_9001)]) as [[H _] _].
    exact (H eq_refl).
  - destruct (findall_nonoverlapping_matches ascii_only
                (text_of_string "no record here") []) as [[H _] _].
    exact (H eq_refl).
Defined.

(** C6 as it is worded fails: with no data file the run ends with
    status 0 and the schema in place, and no total is printed. *)
Lemma no_total_reported_without_files :
  let '(r, w) := parse_and_import_data ascii_only fs_no_files no_faults (initial_world None) in
  ~ (glob (data_dir fs_no_files) = [] -> glob (cwd fs_no_files) = [] ->
     exit_status r = 0%Z /\
     disk w = Some {| rows := []; indexed := true |} /\
     In (MsgImportComplete 0) (stdout w)).
Proof.
  vm_compute. intros H. destruct (H eq_refl eq_refl) as (_ & _ & Hin).
  repeat (destruct Hin as [Hin | Hin]; [discriminate|]). exact Hin.
Qed.

Lemma no_files_is_a_successful_no_op_witness :
  glob (data_dir fs_no_files) = [] /\ glob (cwd fs_no_files) = [] /\
  let '(r, w) := parse_and_import_data ascii_only fs_no_files no_faults (initial_world None) in
  exit_status r = 0%Z /\
  disk w = Some {| rows := rows_of None; indexed := true |} /\
  sent (oplog w) = [] /\
  conn w = Closed /\
  stdout w = [MsgConnecting; MsgSchemaCreated; MsgNoFilesInDataDir; MsgNoFilesInCwd].
Proof.
  split; [reflexivity|]. split; [reflexivity|].
  exact (no_files_is_a_successful_no_op ascii_only fs_no_files None eq_refl eq_refl).
Defined.

Lemma missing_directories_are_fatal_witness :
  cwd fs_missing = None /\
  let '(status, w) := main ascii_only fs_missing no_faults None in
  status = 1%Z /\ status <> 0%Z /\
  stdout w = [MsgConnecting; MsgSqliteError] /\
  oplog w = [{| op := OpConnect; raised := true |}] /\
  disk w = None /\
  conn w = NoConnection /\
  forall dd entries,
    glob dd = [] -> glob (Some entries) = [] ->
    fst (main ascii_only {| data_dir := dd; cwd := Some entries |} no_faults None) = 0%Z.
Proof.
  split; [reflexivity|].
  exact (missing_directories_are_fatal ascii_only fs_missing no_faults None eq_refl).
Defined.

(** C9 as it is worded fails: a file that cannot be opened ends the run
    with a traceback, and the record of the well-formed file, read
    before it, never reaches the table. *)
Lemma unreadable_file_aborts_the_run :
  let '(r, w) := parse_and_import_data ascii_only fs_unreadable no_faults
                   (initial_world None) in
  r = Raise OtherOSError /\
  rows_of (disk w) = [] /\
  ~ (exit_status r = 0%Z /\ In (text_9001, text_5551234) (rows_of (disk w))).
Proof.
  vm_compute. repeat split. intros [H _]. discriminate.
Qed.

Example undecodable_run :
  ingest ascii_only fs_undecodable BATCH_SIZE None =
  Some {| rows := [(text_of_string "88", text_of_string "77"); (text_9001, text_5551234)];
          indexed := true |}.
Proof. reflexivity. Qed.

Lemma storage_error_aborts_the_run_witness :
  let '(r, w) := parse_and_import_data_with ascii_only fs_two_lines fail_first_batch BATCH_SIZE
                   (initial_world None) in
  Exists (fun e => raised e = true) (oplog w) /\
  failed_last (oplog w) /\
  r = Raise (SystemExit 1) /\
  exit_status r <> 0%Z /\
  In MsgSqliteError (stdout w) /\
  released w /\
  rows_of (disk w) = [].
Proof.
  pose proof (storage_error_aborts_the_run ascii_only fs_two_lines fail_first_batch
                BATCH_SIZE None) as H.
  destruct (parse_and_import_data_with ascii_only fs_two_lines fail_first_batch BATCH_SIZE
              (initial_world None)) as [r w] eqn:E.
  vm_compute in E. injection E as <- <-.
  destruct H as (Hrel & Hd & Himp).
  assert (Hex : Exists (fun e => raised e = true)
                  (oplog {| disk := Some {| rows := []; indexed := true |};
                            conn := Closed;
                            stdout := [MsgConnecting; MsgSchemaCreated;
                                       MsgProcessing (text_of_string "qb1.txt");
                                       MsgSqliteError];
                            oplog := [{| op := OpConnect; raised := false |};
                                      {| op := OpCreateTable; raised := false |};
                                      {| op := OpCreateIndex; raised := false |};
                                      {| op := OpCommit; raised := false |};
                                      {| op := OpExecuteMany
                                                 [(text_9001, text_5551234);
                                                  (text_9001, text_5555678)];
                                         raised := true |}] |})).
  { simpl. do 4 apply Exists_cons_tl. apply Exists_cons_hd. reflexivity. }
  destruct (Himp Hex) as (Hf & Hr & Hs & Hin).
  repeat split; assumption.
Defined.


(** The flush of a buffer of 50000 records of uid 9001: the table has
    its old row and one row for the uid, and the buffer is empty. *)
Example full_buffer_is_flushed :
  let run := flush_if_full no_faults BATCH_SIZE full_buffer open_connection in
  fst run = Ok {| total_records := BATCH_SIZE; batch_data := [] |} /\
  disk (snd run) = Some {| rows := [(text_of_string "7", text_of_string "1");
                                    (text_9001, text_5551234)];
                           indexed := true |} /\
  conn (snd run) = Connected None /\
  Z.of_nat (length (sent (oplog (snd run)))) = BATCH_SIZE /\
  stdout (snd run) = [MsgImportedSoFar BATCH_SIZE].
Proof. cbv zeta. repeat split; vm_compute; reflexivity. Qed.

(** * Further properties *)

(** ** The table under upserts *)

Section TableInvariants.

Lemma map_uid_filter_incl f rs u :
  In u (map uid (filter f rs)) -> In u (map uid rs).
Proof.
  intros H. apply in_map_iff in H. destruct H as (r & <- & Hr).
  apply filter_In in Hr. apply in_map. tauto.
Qed.

Lemma NoDup_map_uid_filter f rs :
  NoDup (map uid rs) -> NoDup (map uid (filter f rs)).
Proof.
  induction rs as [|r rs IH]; simpl; intros H; [constructor|].
  inversion H as [|? ? Hnin Hnd]; subst.
  destruct (f r); simpl; [|now apply IH].
  constructor; [|now apply IH].
  intros Hin. apply Hnin. now apply map_uid_filter_incl in Hin.
Qed.

Lemma insert_or_replace_NoDup rs r :
  NoDup (map uid rs) -> NoDup (map uid (insert_or_replace rs r)).
Proof.
  intros H. unfold insert_or_replace. rewrite map_app. simpl.
  apply NoDup_app.
  - now apply NoDup_map_uid_filter.
  - repeat constructor. intros [].
  - intros u Hin [<- | []].
    apply in_map_iff in Hin. destruct Hin as (x & Hx & Hf).
    apply filter_In in Hf. destruct Hf as [_ Hf].
    apply negb_true_iff, same_uid_false in Hf. congruence.
Qed.

Lemma upsert_all_NoDup p : forall rs,
  NoDup (map uid rs) -> NoDup (map uid (upsert_all rs p)).
Proof.
  induction p as [|r p IH]; intros rs H; simpl; [assumption|].
  apply IH. now apply insert_or_replace_NoDup.
Qed.

Lemma has_uid_firstn u k p : has_uid u p = false -> has_uid u (firstn k p) = false.
Proof.
  revert k. induction p as [|r p IH]; intros [|k]; simpl; auto.
  intros H. apply orb_false_iff in H. destruct H as [-> H]. simpl. now apply IH.
Qed.

Lemma in_upsert_all r p : forall rs,
  In r (upsert_all rs p) -> In r rs \/ In r p.
Proof.
  induction p as [|x p IH]; intros rs H; simpl in *; [now left|].
  destruct (IH _ H) as [Hin | Hin]; [|now right; right].
  unfold insert_or_replace in Hin. apply in_app_or in Hin.
  destruct Hin as [Hin | [<- | []]].
  - apply filter_In in Hin. tauto.
  - right. now left.
Qed.

Lemma length_filter_le {A} (f : A -> bool) l : length (filter f l) <= length l.
Proof. induction l as [|x l IH]; simpl; [lia|]. destruct (f x); simpl; lia. Qed.

(** With a unique key, an upsert removes at most the one row it
    replaces. *)
Lemma length_filter_other_uid rs u :
  NoDup (map uid rs) ->
  length rs <= S (length (filter (fun r => negb (same_uid u r)) rs)).
Proof.
  induction rs as [|r rs IH]; simpl; intros H; [lia|].
  inversion H as [|? ? Hnin Hnd]; subst.
  destruct (same_uid u r) eqn:Hr; simpl.
  - apply same_uid_true in Hr.
    assert (E : filter (fun r0 => negb (same_uid u r0)) rs = rs).
    { clear IH H Hnd. induction rs as [|x rs IH]; simpl; [reflexivity|].
      destruct (same_uid u x) eqn:Hx; simpl.
      - apply same_uid_true in Hx. exfalso. apply Hnin. left. congruence.
      - f_equal. apply IH. intros Hin. apply Hnin. now right. }
    rewrite E. lia.
  - specialize (IH Hnd). lia.
Qed.

Lemma upsert_all_length p : forall rs,
  NoDup (map uid rs) -> length rs <= length (upsert_all rs p).
Proof.
  induction p as [|r p IH]; intros rs H; simpl; [lia|].
  etransitivity; [|apply IH; now apply insert_or_replace_NoDup].
  unfold insert_or_replace. rewrite length_app. simpl.
  pose proof (length_filter_other_uid rs (uid r) H). lia.
Qed.

End TableInvariants.

(** ** What a run does to the rows it finds *)

Section RowsOfARun.

Variable unicode_decimal : char -> bool.
Variable fs : filesystem.
Variable batch_size : Z.

(** Whatever fails, the table holds the rows it had with the committed
    batches upserted. *)
Lemma run_durable faults d :
  let w := snd (parse_and_import_data_with unicode_decimal fs faults batch_size
                  (initial_world d)) in
  rows_of (disk w) = upsert_all (rows_of d) (committed (oplog w)).
Proof.
  cbv zeta.
  pose proof (try_spec unicode_decimal fs faults batch_size (rows_of d)
                {| disk := d; conn := NoConnection; stdout := [MsgConnecting]; oplog := [] |})
    as H.
  simpl in H. specialize (H (conj eq_refl (conj eq_refl eq_refl))).
  unfold parse_and_import_data_with, bind, print, initial_world. simpl.
  destruct (try_finally _ _ _) as [[[]|e] w]; simpl.
  - destruct H as (_ & Hd & _). exact Hd.
  - destruct H as (_ & Hd & _). exact Hd.
Qed.

(** X1. Whatever the files hold and whatever call into the engine
    fails, a table in which no uid occurs twice is left as a table in
    which no uid occurs twice, and the run does not make the table
    shorter. *)
Theorem primary_key_stays_unique faults d :
  NoDup (map uid (rows_of d)) ->
  let w := snd (parse_and_import_data_with unicode_decimal fs faults batch_size
                  (initial_world d)) in
  NoDup (map uid (rows_of (disk w))) /\
  length (rows_of d) <= length (rows_of (disk w)).
Proof.
  intros H w. unfold w. rewrite run_durable.
  split; [now apply upsert_all_NoDup | now apply upsert_all_length].
Qed.

(** X2. The import never deletes a uid: a uid that has a row before the
    run has one after it, whatever fails.  When the engine does not
    fail, the rows of a uid that no record of the files carries are what
    they were. *)
Theorem no_uid_is_lost faults d u :
  has_uid u (rows_of d) = true ->
  has_uid u (rows_of (disk (snd (parse_and_import_data_with unicode_decimal fs faults
                                   batch_size (initial_world d))))) = true
  /\ (has_uid u (all_records unicode_decimal fs) = false ->
      filter (same_uid u) (rows_of (ingest unicode_decimal fs batch_size d))
      = filter (same_uid u) (rows_of d)).
Proof.
  intros H. split.
  - rewrite run_durable. now apply has_uid_upsert_all.
  - intros Hnot. rewrite ingest_no_faults. simpl rows_of.
    apply filter_upsert_all_other.
    destruct (snd (contents_until_error (selected fs))); [|assumption].
    now apply has_uid_firstn.
Qed.

(** X3. What the import writes are digit strings: when the engine does
    not fail, every row of the table after the run is a row the table
    had or has a uid and a phone number made of one or more decimal
    digits, the two sides of a match in one of the files. *)
Theorem imported_rows_are_digit_strings d r :
  In r (rows_of (ingest unicode_decimal fs batch_size d)) ->
  In r (rows_of d) \/
  (digits unicode_decimal (uid r) /\ digits unicode_decimal (phone_number r) /\
   exists content,
     In content (fst (contents_until_error (selected fs))) /\
     In (phone_number r, uid r) (findall unicode_decimal content)).
Proof.
  rewrite ingest_no_faults. simpl rows_of. intros H.
  apply in_upsert_all in H. destruct H as [H | H]; [now left | right].
  assert (Hrec : In r (all_records unicode_decimal fs)).
  { destruct (snd (contents_until_error (selected fs))); [|assumption].
    revert H. generalize (committed_count batch_size
                            (length (all_records unicode_decimal fs))).
    generalize (all_records unicode_decimal fs).
    intros l n. revert l. induction n as [|n IH]; intros [|x l]; simpl; try tauto.
    intros [-> | Hin]; [now left | right; now apply IH]. }
  unfold all_records, records_of in Hrec.
  apply in_map_iff in Hrec. destruct Hrec as ([a b] & <- & Hin).
  apply in_concat in Hin. destruct Hin as (ms & Hms & Hin).
  apply in_map_iff in Hms. destruct Hms as (content & <- & Hc).
  destruct (findall_sound unicode_decimal content a b Hin) as (pre & post & _ & Ha & Hb).
  simpl. split; [assumption|]. split; [assumption|]. exists content. auto.
Qed.

End RowsOfARun.

(** ** More on the extractor *)

Section ExtractorComposition.

Variable unicode_decimal : char -> bool.

Lemma match_at_no_digit c s :
  is_digit unicode_decimal c = false -> match_at unicode_decimal (c :: s) = None.
Proof. intros H. unfold match_at. simpl. now rewrite H. Qed.

Lemma no_match_here s :
  match_at unicode_decimal s = None -> ~ matches_here unicode_decimal s.
Proof.
  intros H Hm. apply matches_here_match_at in Hm. destruct Hm as [m Hm]. congruence.
Qed.

(** Each match takes six characters or more. *)
Lemma nonoverlapping_matches_length s l :
  nonoverlapping_matches unicode_decimal s l -> 6 * length l <= length s.
Proof.
  induction 1 as [|c s l _ _ IH|s a b rest l Ho _ _ IH]; simpl in *; try lia.
  destruct Ho as (-> & [Ha _] & [Hb _]). rewrite !length_app. simpl.
  destruct a; [contradiction|]. destruct b; [contradiction|]. simpl. lia.
Qed.

Section Separator.

Variable c : char.
Variable s2 : text.
Hypothesis c_no_digit : is_digit unicode_decimal c = false.
Hypothesis c_no_hyphen : c <> HYPHEN.

Lemma span_digits_sep s :
  span_digits unicode_decimal (s ++ c :: s2) =
  (fst (span_digits unicode_decimal s), snd (span_digits unicode_decimal s) ++ c :: s2).
Proof.
  induction s as [|x s IH]; simpl.
  - now rewrite c_no_digit.
  - destruct (is_digit unicode_decimal x); [|reflexivity].
    rewrite IH. now destruct (span_digits unicode_decimal s).
Qed.

Lemma lit_hyphens_sep s :
  lit_hyphens (s ++ c :: s2) =
  match lit_hyphens s with
  | Some r => Some (r ++ c :: s2)
  | None => None
  end.
Proof.
  assert (Hc : (c =? HYPHEN)%N = false) by now apply N.eqb_neq.
  destruct s as [|h1 [|h2 [|h3 [|h4 s]]]]; simpl.
  - destruct s2 as [|x [|y [|z t]]]; try reflexivity. now rewrite Hc.
  - destruct s2 as [|x [|y t]]; try reflexivity. now rewrite Hc, andb_false_r.
  - destruct s2 as [|x t]; try reflexivity. now rewrite Hc, andb_false_r.
  - now rewrite Hc, andb_false_r.
  - now destruct ((h1 =? HYPHEN)%N && (h2 =? HYPHEN)%N && (h3 =? HYPHEN)%N
                  && (h4 =? HYPHEN)%N).
Qed.

Lemma match_tail_sep s :
  match_tail unicode_decimal (s ++ c :: s2) =
  match match_tail unicode_decimal s with
  | Some (b, rest) => Some (b, rest ++ c :: s2)
  | None => None
  end.
Proof.
  unfold match_tail. rewrite lit_hyphens_sep.
  destruct (lit_hyphens s) as [r|]; [|reflexivity].
  rewrite span_digits_sep. destruct (span_digits unicode_decimal r) as [[|x b] rest];
    reflexivity.
Qed.

Lemma match_at_sep s :
  match_at unicode_decimal (s ++ c :: s2) =
  match match_at unicode_decimal s with
  | Some (a, b, rest) => Some (a, b, rest ++ c :: s2)
  | None => None
  end.
Proof.
  unfold match_at. rewrite !match_from_greedy, span_digits_sep.
  destruct (span_digits unicode_decimal s) as [[|x a] r]; [reflexivity|]. simpl fst. simpl snd.
  rewrite match_tail_sep.
  destruct (match_tail unicode_decimal r) as [[b rest]|]; reflexivity.
Qed.

Lemma nonoverlapping_matches_sep s1 l1 l2 :
  nonoverlapping_matches unicode_decimal s1 l1 ->
  nonoverlapping_matches unicode_decimal s2 l2 ->
  nonoverlapping_matches unicode_decimal (s1 ++ c :: s2) (l1 ++ l2).
Proof.
  intros H1 H2. induction H1 as [|x s l Hno _ IH|s a b rest l Ho Hr _ IH]; simpl.
  - apply nm_skip; [|assumption]. apply no_match_here. now apply match_at_no_digit.
  - apply nm_skip; [|assumption]. apply no_match_here.
    change (x :: s ++ c :: s2) with ((x :: s) ++ c :: s2). rewrite match_at_sep.
    destruct (match_at unicode_decimal (x :: s)) as [m|] eqn:Hm; [|reflexivity].
    exfalso. apply Hno. apply matches_here_match_at. eauto.
  - assert (Hm : match_at unicode_decimal (s ++ c :: s2) = Some (a, b, rest ++ c :: s2)).
    { rewrite match_at_sep.
      assert (E : match_at unicode_decimal s = Some (a, b, rest))
        by (apply match_at_spec; auto).
      now rewrite E. }
    apply match_at_spec in Hm. destruct Hm as [Ho' Hr'].
    now apply nm_match with (rest := rest ++ c :: s2).
Qed.

Lemma findall_sep s1 :
  findall unicode_decimal (s1 ++ c :: s2) =
  findall unicode_decimal s1 ++ findall unicode_decimal s2.
Proof.
  apply scan_complete; [|lia].
  apply nonoverlapping_matches_sep; apply scan_spec; lia.
Qed.

End Separator.

(** X4. A character that is neither a digit nor a hyphen separates: the
    matches of [s1 c s2] are those of [s1] followed by those of [s2].
    So a file is scanned line by line: the matches of a text made of
    lines are those of its lines, in order. *)
Theorem findall_line_by_line c :
  is_digit unicode_decimal c = false -> c <> HYPHEN ->
  (forall s1 s2,
      findall unicode_decimal (s1 ++ c :: s2) =
      findall unicode_decimal s1 ++ findall unicode_decimal s2) /\
  (forall lines,
      findall unicode_decimal (concat (map (fun l => l ++ [c]) lines)) =
      concat (map (findall unicode_decimal) lines)).
Proof.
  intros Hd Hh. split.
  - intros s1 s2. now apply findall_sep.
  - induction lines as [|l lines IH]; [reflexivity|]. simpl.
    rewrite <- app_assoc. simpl. rewrite findall_sep by assumption. now rewrite IH.
Qed.

(** X5. A text of [n] characters has at most [n / 6] matches, and every
    match is made of two non-empty groups: a text shorter than six
    characters has none. *)
Theorem findall_at_most_a_sixth content :
  6 * length (findall unicode_decimal content) <= length content /\
  (length content < 6 -> findall unicode_decimal content = []).
Proof.
  assert (H : 6 * length (findall unicode_decimal content) <= length content).
  { apply nonoverlapping_matches_length. apply scan_spec. lia. }
  split; [exact H|]. intros Hlt.
  destruct (findall unicode_decimal content); [reflexivity | simpl in H; lia].
Qed.

End ExtractorComposition.

(** ** Reading and extracting *)

Section ReadingAndExtracting.

Variable unicode_decimal : char -> bool.

Lemma digit_not_CR c : is_digit unicode_decimal c = true -> (c =? CR)%N = false.
Proof.
  intros H. destruct (c =? CR)%N eqn:E; [|reflexivity].
  apply N.eqb_eq in E. subst. discriminate.
Qed.

Lemma translate_newlines_cons (c : char) (s : list char) :
  (c =? CR)%N = false ->
  translate_newlines (@cons char c s) = @cons char c (translate_newlines s).
Proof. intros H. simpl. now rewrite H. Qed.

Lemma translate_newlines_no_digit s :
  no_digit_ahead unicode_decimal s ->
  no_digit_ahead unicode_decimal (translate_newlines s).
Proof.
  destruct s as [|c s]; simpl; [auto|]. intros H.
  destruct (c =? CR)%N; [reflexivity | exact H].
Qed.

Lemma span_digits_translate s :
  span_digits unicode_decimal (translate_newlines s) =
  (fst (span_digits unicode_decimal s),
   translate_newlines (snd (span_digits unicode_decimal s))).
Proof.
  induction s as [|c s IH]; [reflexivity|].
  destruct (is_digit unicode_decimal c) eqn:Hc.
  - rewrite translate_newlines_cons by now apply digit_not_CR.
    simpl. rewrite Hc, IH. now destruct (span_digits unicode_decimal s).
  - assert (E : span_digits unicode_decimal (c :: s) = ([], c :: s))
      by (simpl; now rewrite Hc).
    rewrite E. simpl fst. simpl snd.
    apply (span_digits_app unicode_decimal [] (translate_newlines (c :: s))).
    + constructor.
    + apply translate_newlines_no_digit. exact Hc.
Qed.

Lemma translate_newlines_hyphen s r :
  translate_newlines s = HYPHEN :: r ->
  exists s', s = HYPHEN :: s' /\ translate_newlines s' = r.
Proof.
  destruct s as [|c s]; simpl; [discriminate|].
  destruct (c =? CR)%N; [discriminate|].
  intros [= -> <-]. eauto.
Qed.

Lemma lit_hyphens_translate s :
  lit_hyphens (translate_newlines s) =
  match lit_hyphens s with
  | Some r => Some (translate_newlines r)
  | None => None
  end.
Proof.
  destruct (lit_hyphens s) as [r|] eqn:E.
  - apply lit_hyphens_spec in E. subst s. reflexivity.
  - destruct (lit_hyphens (translate_newlines s)) as [r|] eqn:E'; [|reflexivity].
    apply lit_hyphens_spec in E'. simpl in E'.
    apply translate_newlines_hyphen in E'. destruct E' as (s1 & -> & E').
    apply translate_newlines_hyphen in E'. destruct E' as (s2 & -> & E').
    apply translate_newlines_hyphen in E'. destruct E' as (s3 & -> & E').
    apply translate_newlines_hyphen in E'. destruct E' as (s4 & -> & E').
    discriminate.
Qed.

Lemma match_at_translate s :
  match_at unicode_decimal (translate_newlines s) =
  match match_at unicode_decimal s with
  | Some (a, b, rest) => Some (a, b, translate_newlines rest)
  | None => None
  end.
Proof.
  unfold match_at. rewrite !match_from_greedy, span_digits_translate.
  destruct (span_digits unicode_decimal s) as [[|x a] r]; [reflexivity|]. simpl fst. simpl snd.
  unfold match_tail. rewrite lit_hyphens_translate.
  destruct (lit_hyphens r) as [t|]; [|reflexivity].
  rewrite span_digits_translate.
  destruct (span_digits unicode_decimal t) as [[|y b] rest]; reflexivity.
Qed.

Lemma nonoverlapping_matches_translate s l :
  nonoverlapping_matches unicode_decimal s l ->
  nonoverlapping_matches unicode_decimal (translate_newlines s) l.
Proof.
  induction 1 as [|c s l Hno _ IH|s a b rest l Ho Hr _ IH].
  - constructor.
  - destruct (c =? CR)%N eqn:Hc.
    + simpl. rewrite Hc. destruct s as [|d s].
      * apply nm_skip; [|exact IH]. apply no_match_here. now apply match_at_no_digit.
      * destruct (d =? LF)%N eqn:Hd.
        -- apply N.eqb_eq in Hd. subst d. exact IH.
        -- apply nm_skip; [|exact IH]. apply no_match_here. now apply match_at_no_digit.
    + pose proof (translate_newlines_cons c s Hc) as E. rewrite E.
      apply nm_skip; [|exact IH]. apply no_match_here.
      rewrite <- E, match_at_translate.
      destruct (match_at unicode_decimal (c :: s)) as [m|] eqn:Hm; [|reflexivity].
      exfalso. apply Hno. apply matches_here_match_at. eauto.
  - assert (Hm : match_at unicode_decimal (translate_newlines s)
                 = Some (a, b, translate_newlines rest)).
    { rewrite match_at_translate.
      assert (E : match_at unicode_decimal s = Some (a, b, rest))
        by (apply match_at_spec; auto).
      now rewrite E. }
    apply match_at_spec in Hm. destruct Hm as [Ho' Hr'].
    now apply nm_match with (rest := translate_newlines rest).
Qed.

Lemma decode_ignore_ascii raw :
  ascii_bytes raw -> Utf8.decode_ignore raw = raw.
Proof.
  induction 1 as [|b raw Hb _ IH]; [reflexivity|].
  cbn [Utf8.decode_ignore]. now rewrite Hb, IH.
Qed.

(** X6. Line endings do not change what is extracted: translating
    "\r\n" and "\r" to "\n" leaves the matches of every text as they
    are.  For a file of plain ASCII bytes the matches of what [read]
    returns are the matches of the bytes themselves. *)
Theorem newlines_do_not_change_matches :
  (forall s, findall unicode_decimal (translate_newlines s) = findall unicode_decimal s) /\
  (forall raw, findall unicode_decimal (read_text raw)
               = findall unicode_decimal (Utf8.decode_ignore raw)) /\
  (forall raw, ascii_bytes raw ->
               findall unicode_decimal (read_text raw) = findall unicode_decimal raw).
Proof.
  assert (H : forall s, findall unicode_decimal (translate_newlines s)
                        = findall unicode_decimal s).
  { intros s. apply scan_complete; [|lia].
    apply nonoverlapping_matches_translate. apply scan_spec. lia. }
  split; [exact H|]. split.
  - intros raw. apply H.
  - intros raw Hraw. unfold read_text. rewrite H. now rewrite decode_ignore_ascii.
Qed.

End ReadingAndExtracting.

(** ** The decoder against the standard *)

Section DecoderSpec.

Import Utf8Spec.
Local Open Scope N_scope.

Ltac euclid := zify; Z.to_euclidean_division_equations; lia.

(** The well-formed byte sequences, by their first byte. *)
Lemma encode_cases c :
  scalar_value c ->
  (c < 0x80 /\ encode c = [c]) \/
  (exists b1 b2,
      encode c = [b1; b2] /\ 0xC2 <= b1 <= 0xDF /\ 0x80 <= b2 <= 0xBF /\
      c + 0x3080 = b1 * 64 + b2) \/
  (exists b1 b2 b3,
      encode c = [b1; b2; b3] /\ 0xE0 <= b1 <= 0xEF /\ 0x80 <= b2 <= 0xBF /\
      0x80 <= b3 <= 0xBF /\ (b1 = 0xE0 -> 0xA0 <= b2) /\ (b1 = 0xED -> b2 <= 0x9F) /\
      c + 0xE2080 = b1 * 4096 + b2 * 64 + b3) \/
  (exists b1 b2 b3 b4,
      encode c = [b1; b2; b3; b4] /\ 0xF0 <= b1 <= 0xF4 /\ 0x80 <= b2 <= 0xBF /\
      0x80 <= b3 <= 0xBF /\ 0x80 <= b4 <= 0xBF /\
      (b1 = 0xF0 -> 0x90 <= b2) /\ (b1 = 0xF4 -> b2 <= 0x8F) /\
      c + 0x3C82080 = b1 * 262144 + b2 * 4096 + b3 * 64 + b4).
Proof.
  intros Hc. unfold encode, scalar_value in *.
  destruct (N.ltb_spec c 0x80); [left; auto|].
  destruct (N.ltb_spec c 0x800).
  { right; left. eexists _, _. split; [reflexivity|]. euclid. }
  destruct (N.ltb_spec c 0x10000).
  { right; right; left. eexists _, _, _. split; [reflexivity|]. euclid. }
  right; right; right. eexists _, _, _, _. split; [reflexivity|]. euclid.
Qed.

Lemma encode_1 b : b < 0x80 -> scalar_value b /\ encode b = [b].
Proof.
  intros H. split; [left; lia|]. unfold encode.
  destruct (N.ltb_spec b 0x80); [reflexivity | lia].
Qed.

Lemma encode_2 b1 b2 :
  0xC2 <= b1 <= 0xDF -> 0x80 <= b2 <= 0xBF ->
  let c := b1 * 64 + b2 - (0xC0 * 64 + 0x80) in
  scalar_value c /\ encode c = [b1; b2].
Proof.
  intros H1 H2 c. assert (Hc : c + 0x3080 = b1 * 64 + b2) by (unfold c; lia).
  clearbody c. split; [left; lia|]. unfold encode.
  destruct (N.ltb_spec c 0x80); [lia|].
  destruct (N.ltb_spec c 0x800); [|lia].
  f_equal; [|f_equal]; euclid.
Qed.

Lemma encode_3 b1 b2 b3 :
  0xE0 <= b1 <= 0xEF -> 0x80 <= b2 <= 0xBF -> 0x80 <= b3 <= 0xBF ->
  (b1 = 0xE0 -> 0xA0 <= b2) -> (b1 = 0xED -> b2 <= 0x9F) ->
  let c := b1 * 4096 + b2 * 64 + b3 - (0xE0 * 4096 + 0x80 * 64 + 0x80) in
  scalar_value c /\ encode c = [b1; b2; b3].
Proof.
  intros H1 H2 H3 Hlo Hhi c.
  assert (Hc : c + 0xE2080 = b1 * 4096 + b2 * 64 + b3) by (unfold c; lia).
  clearbody c. split; [unfold scalar_value; lia|]. unfold encode.
  destruct (N.ltb_spec c 0x80); [lia|].
  destruct (N.ltb_spec c 0x800); [lia|].
  destruct (N.ltb_spec c 0x10000); [|lia].
  f_equal; [|f_equal; [|f_equal]]; euclid.
Qed.

Lemma encode_4 b1 b2 b3 b4 :
  0xF0 <= b1 <= 0xF4 -> 0x80 <= b2 <= 0xBF -> 0x80 <= b3 <= 0xBF -> 0x80 <= b4 <= 0xBF ->
  (b1 = 0xF0 -> 0x90 <= b2) -> (b1 = 0xF4 -> b2 <= 0x8F) ->
  let c := b1 * 262144 + b2 * 4096 + b3 * 64 + b4
           - (0xF0 * 262144 + 0x80 * 4096 + 0x80 * 64 + 0x80) in
  scalar_value c /\ encode c = [b1; b2; b3; b4].
Proof.
  intros H1 H2 H3 H4 Hlo Hhi c.
  assert (Hc : c + 0x3C82080 = b1 * 262144 + b2 * 4096 + b3 * 64 + b4)
    by (unfold c; lia).
  clearbody c. split; [unfold scalar_value; lia|]. unfold encode.
  destruct (N.ltb_spec c 0x80); [lia|].
  destruct (N.ltb_spec c 0x800); [lia|].
  destruct (N.ltb_spec c 0x10000); [lia|].
  f_equal; [|f_equal; [|f_equal; [|f_equal]]]; euclid.
Qed.

Lemma decoded_1 b s t :
  b < 0x80 -> decoded s t -> decoded (b :: s) (b :: t).
Proof.
  intros H D. destruct (encode_1 b H) as [Hs He].
  pose proof (decoded_char b s t Hs D) as D'. rewrite He in D'. exact D'.
Qed.

Lemma decoded_2 b1 b2 s t :
  0xC2 <= b1 <= 0xDF -> 0x80 <= b2 <= 0xBF -> decoded s t ->
  decoded (b1 :: b2 :: s) ((b1 * 64 + b2 - (0xC0 * 64 + 0x80)) :: t).
Proof.
  intros H1 H2 D. destruct (encode_2 b1 b2 H1 H2) as [Hs He].
  pose proof (decoded_char _ s t Hs D) as D'. rewrite He in D'. exact D'.
Qed.

Lemma decoded_3 b1 b2 b3 s t :
  0xE0 <= b1 <= 0xEF -> 0x80 <= b2 <= 0xBF -> 0x80 <= b3 <= 0xBF ->
  (b1 = 0xE0 -> 0xA0 <= b2) -> (b1 = 0xED -> b2 <= 0x9F) -> decoded s t ->
  decoded (b1 :: b2 :: b3 :: s)
          ((b1 * 4096 + b2 * 64 + b3 - (0xE0 * 4096 + 0x80 * 64 + 0x80)) :: t).
Proof.
  intros H1 H2 H3 Hlo Hhi D. destruct (encode_3 b1 b2 b3 H1 H2 H3 Hlo Hhi) as [Hs He].
  pose proof (decoded_char _ s t Hs D) as D'. rewrite He in D'. exact D'.
Qed.

Lemma decoded_4 b1 b2 b3 b4 s t :
  0xF0 <= b1 <= 0xF4 -> 0x80 <= b2 <= 0xBF -> 0x80 <= b3 <= 0xBF -> 0x80 <= b4 <= 0xBF ->
  (b1 = 0xF0 -> 0x90 <= b2) -> (b1 = 0xF4 -> b2 <= 0x8F) -> decoded s t ->
  decoded (b1 :: b2 :: b3 :: b4 :: s)
          ((b1 * 262144 + b2 * 4096 + b3 * 64 + b4
            - (0xF0 * 262144 + 0x80 * 4096 + 0x80 * 64 + 0x80)) :: t).
Proof.
  intros H1 H2 H3 H4 Hlo Hhi D.
  destruct (encode_4 b1 b2 b3 b4 H1 H2 H3 H4 Hlo Hhi) as [Hs He].
  pose proof (decoded_char _ s t Hs D) as D'. rewrite He in D'. exact D'.
Qed.

(** No well-formed sequence begins here: by the first byte, or by the
    bytes that follow it. *)
Ltac not_a_start :=
  let c := fresh "c" in
  let rest := fresh "rest" in
  let Hsc := fresh "Hsc" in
  let Heq := fresh "Heq" in
  intros (c & rest & Hsc & Heq);
  destruct (encode_cases c Hsc)
    as [(? & E) | [(? & ? & E & ?) | [(? & ? & ? & E & ?) | (? & ? & ? & ? & E & ?)]]];
  rewrite E in Heq; inversion Heq; subst; lia.

Ltac drop_byte := apply decoded_drop; [not_a_start|].

Ltac tests :=
  repeat match goal with
         | |- context [N.ltb ?a ?b] => destruct (N.ltb_spec a b)
         | |- context [N.leb ?a ?b] => destruct (N.leb_spec a b)
         | |- context [N.eqb ?a ?b] => destruct (N.eqb_spec a b)
         end; cbn [andb orb negb].

Lemma decode_ignore_decoded_below n : forall raw,
  (length raw <= n)%nat -> decoded raw (Utf8.decode_ignore raw).
Proof.
  induction n as [|n IH]; intros raw Hlen.
  - destruct raw; [constructor | simpl in Hlen; lia].
  - destruct raw as [|b1 s1]; [constructor|]. simpl in Hlen.
    assert (IH1 : decoded s1 (Utf8.decode_ignore s1)) by (apply IH; lia).
    cbn [Utf8.decode_ignore].
    destruct (N.ltb_spec b1 0x80); [now apply decoded_1|].
    destruct (N.ltb_spec b1 0xC2); [drop_byte; assumption|].
    destruct (N.ltb_spec b1 0xE0).
    { destruct s1 as [|b2 s2]; [drop_byte; constructor|].
      simpl in Hlen. unfold Utf8.is_continuation. tests.
      all: try (drop_byte; assumption).
      apply decoded_2; [lia | lia |]. apply IH. lia. }
    destruct (N.ltb_spec b1 0xF0).
    { destruct s1 as [|b2 s2]; [drop_byte; constructor|].
      simpl in Hlen. unfold Utf8.is_continuation.
      destruct s2 as [|b3 s3].
      - tests. all: try (drop_byte; assumption).
        all: drop_byte; drop_byte; constructor.
      - simpl in Hlen.
        assert (IH2 : decoded (b3 :: s3) (Utf8.decode_ignore (b3 :: s3)))
          by (apply IH; simpl; lia).
        tests. all: try (drop_byte; assumption).
        all: try (drop_byte; drop_byte; assumption).
        all: apply decoded_3; try lia; apply IH; lia. }
    destruct (N.ltb_spec b1 0xF5); [|drop_byte; assumption].
    destruct s1 as [|b2 s2]; [drop_byte; constructor|].
    simpl in Hlen. unfold Utf8.is_continuation.
    destruct s2 as [|b3 s3].
    { tests. all: try (drop_byte; assumption).
      all: drop_byte; drop_byte; constructor. }
    simpl in Hlen.
    assert (IH2 : decoded (b3 :: s3) (Utf8.decode_ignore (b3 :: s3)))
      by (apply IH; simpl; lia).
    destruct s3 as [|b4 s4].
    { tests. all: try (drop_byte; assumption).
      all: try (drop_byte; drop_byte; assumption).
      all: drop_byte; drop_byte; drop_byte; constructor. }
    simpl in Hlen.
    assert (IH3 : decoded (b4 :: s4) (Utf8.decode_ignore (b4 :: s4)))
      by (apply IH; simpl; lia).
    tests. all: try (drop_byte; assumption).
    all: try (drop_byte; drop_byte; assumption).
    all: try (drop_byte; drop_byte; drop_byte; assumption).
    all: apply decoded_4; try lia; apply IH; lia.
Qed.

(** Whatever the bytes, the decoder returns what the standard and the
    [ignore] handler ask for. *)
Lemma decode_ignore_decoded raw : decoded raw (Utf8.decode_ignore raw).
Proof. now apply (decode_ignore_decoded_below (length raw)). Qed.

(** UTF-8 is a prefix code. *)
Lemma encode_prefix_free c c' r r' :
  scalar_value c -> scalar_value c' ->
  encode c ++ r = encode c' ++ r' -> c = c' /\ r = r'.
Proof.
  intros Hc Hc' Heq.
  destruct (encode_cases c Hc)
    as [(? & E) | [(? & ? & E & ?) | [(? & ? & ? & E & ?) | (? & ? & ? & ? & E & ?)]]];
  destruct (encode_cases c' Hc')
    as [(? & E') | [(? & ? & E' & ?) | [(? & ? & ? & E' & ?) | (? & ? & ? & ? & E' & ?)]]];
  rewrite E, E' in Heq; inversion Heq; subst;
    first [split; [lia | reflexivity] | exfalso; lia].
Qed.

Lemma decoded_functional raw t :
  decoded raw t -> forall t', decoded raw t' -> t = t'.
Proof.
  induction 1 as [|c rest t Hc D IH|b rest t Hb D IH]; intros t' D'.
  - inversion D' as [|c' rest' t'' Hc' D'' Heq|]; [reflexivity|].
    destruct (encode_cases c' Hc')
      as [(? & E) | [(? & ? & E & ?) | [(? & ? & ? & E & ?) | (? & ? & ? & ? & E & ?)]]];
      rewrite E in Heq; discriminate Heq.
  - inversion D' as [Heq|c' rest' t'' Hc' D'' Heq|b' rest' t'' Hb' D'' Heq].
    + destruct (encode_cases c Hc)
        as [(? & E) | [(? & ? & E & ?) | [(? & ? & ? & E & ?) | (? & ? & ? & ? & E & ?)]]];
        rewrite E in Heq; discriminate Heq.
    + destruct (encode_prefix_free c' c rest' rest Hc' Hc Heq) as [-> ->].
      f_equal. now apply IH.
    + exfalso. apply Hb'. exists c, rest. split; [assumption|]. now rewrite Heq.
  - inversion D' as [|c' rest' t'' Hc' D'' Heq|b' rest' t'' Hb' D'']; subst.
    + exfalso. apply Hb. exists c', rest'. auto.
    + now apply IH.
Qed.

Lemma decode_ignore_spec raw t :
  Utf8.decode_ignore raw = t <-> decoded raw t.
Proof.
  split.
  - intros <-. apply decode_ignore_decoded.
  - intros D. exact (decoded_functional _ _ (decode_ignore_decoded raw) _ D).
Qed.

Lemma decoded_encode_text s :
  Forall scalar_value s -> decoded (encode_text s) s.
Proof.
  induction 1 as [|c s Hc _ IH]; [constructor|]. simpl. now constructor.
Qed.

Variable unicode_decimal : char -> bool.

Lemma findall_translate_newlines s :
  findall unicode_decimal (translate_newlines s) = findall unicode_decimal s.
Proof.
  apply scan_complete; [|lia].
  apply nonoverlapping_matches_translate. apply scan_spec. lia.
Qed.

Lemma findall_read_text raw t :
  decoded raw t -> findall unicode_decimal (read_text raw) = findall unicode_decimal t.
Proof.
  intros D. unfold read_text. rewrite findall_translate_newlines.
  apply decode_ignore_spec in D. now rewrite D.
Qed.

End DecoderSpec.

(** C9, as the script has it. Files whose bytes are not valid UTF-8 do
    not stop the run: when every selected file can be opened, whatever
    its bytes, the run ends normally, and every match of the text of
    every file is handed to the store and has its row.  The text of a
    file is what the standard asks for with the [ignore] handler: the
    scalar values of the well-formed sequences in order, every byte at
    which no well-formed sequence begins dropped, and decoding going on
    behind it; so a file of well-formed UTF-8 is read as the text it
    encodes and all its records are imported, whatever the other files
    hold. *)
Theorem undecodable_bytes_do_not_abort unicode_decimal fs bs d :
  (forall e, In e (selected fs) -> exists raw, state e = Readable raw) ->
  let '(r, w) := parse_and_import_data_with unicode_decimal fs no_faults bs (initial_world d) in
  r = Ok tt /\
  (forall e raw m,
      In e (selected fs) -> state e = Readable raw ->
      In m (findall unicode_decimal (read_text raw)) ->
      In (snd m, fst m) (sent (oplog w)) /\
      has_uid (snd m) (rows_of (disk w)) = true) /\
  (forall pre b post,
      ascii_bytes pre -> invalid_start b = true ->
      Utf8.decode_ignore (pre ++ b :: post) = pre ++ Utf8.decode_ignore post) /\
  (forall e raw t m,
      In e (selected fs) -> state e = Readable raw ->
      Utf8Spec.decoded raw t -> In m (findall unicode_decimal t) ->
      In (snd m, fst m) (sent (oplog w)) /\
      has_uid (snd m) (rows_of (disk w)) = true) /\
  (forall e s m,
      In e (selected fs) -> state e = Readable (Utf8Spec.encode_text s) ->
      Forall Utf8Spec.scalar_value s -> In m (findall unicode_decimal s) ->
      In (snd m, fst m) (sent (oplog w)) /\
      has_uid (snd m) (rows_of (disk w)) = true) /\
  (forall raw t, Utf8.decode_ignore raw = t <-> Utf8Spec.decoded raw t) /\
  (forall s, Forall Utf8Spec.scalar_value s ->
             Utf8.decode_ignore (Utf8Spec.encode_text s) = s).
Proof.
  intros Hall.
  pose proof (readable_files_are_imported unicode_decimal fs bs d Hall) as H.
  destruct (parse_and_import_data_with unicode_decimal fs no_faults bs (initial_world d))
    as [r w].
  destruct H as [Hr Himp].
  assert (Hdec : forall e raw t m,
             In e (selected fs) -> state e = Readable raw ->
             Utf8Spec.decoded raw t -> In m (findall unicode_decimal t) ->
             In (snd m, fst m) (sent (oplog w)) /\
             has_uid (snd m) (rows_of (disk w)) = true).
  { intros e raw t m He Hst D Hm. apply (Himp e raw m He Hst).
    now rewrite (findall_read_text unicode_decimal raw t D). }
  split; [exact Hr|]. split; [exact Himp|]. split; [apply decode_ignore_drops|].
  split; [exact Hdec|]. split; [|split].
  - intros e s m He Hst Hs Hm.
    exact (Hdec e _ s m He Hst (decoded_encode_text s Hs) Hm).
  - apply decode_ignore_spec.
  - intros s Hs. apply decode_ignore_spec. now apply decoded_encode_text.
Qed.

(** ** Which files are imported *)

Section Selection.

Variable unicode_decimal : char -> bool.

Lemma starts_with_spec p : forall s,
  starts_with p s = true <-> exists r, s = p ++ r.
Proof.
  induction p as [|c p IH]; intros s; simpl.
  - split; [eauto | reflexivity].
  - destruct s as [|d s].
    + split; [discriminate | intros [r H]; discriminate].
    + rewrite andb_true_iff, N.eqb_eq, IH. split.
      * intros [-> [r ->]]. eauto.
      * intros [r [= -> ->]]. eauto.
Qed.

Lemma fnmatch_qb_txt_spec n : fnmatch_qb_txt n = true <-> qb_txt_name n.
Proof.
  unfold fnmatch_qb_txt, qb_txt_name. rewrite andb_true_iff, !starts_with_spec. split.
  - intros [[r ->] [y Hy]]. change (skipn 2 (text_of_string "qb" ++ r)) with r in Hy.
    exists (rev y). f_equal.
    rewrite <- (rev_involutive r), Hy, rev_app_distr, rev_involutive. reflexivity.
  - intros [x ->]. split; [eauto|].
    change (skipn 2 (text_of_string "qb" ++ x ++ text_of_string ".txt"))
      with (x ++ text_of_string ".txt").
    rewrite rev_app_distr. eauto.
Qed.

(** X7. The glob selects the entries of the directory whose name is
    [qb], anything, [.txt], and no others, in the order of the listing;
    a directory that does not exist gives no file. *)
Theorem glob_selects_qb_txt :
  (forall d e,
      In e (glob d) <->
      exists entries, d = Some entries /\ In e entries /\ qb_txt_name (name e)) /\
  (forall es1 es2, glob (Some (es1 ++ es2)) = glob (Some es1) ++ glob (Some es2)) /\
  glob None = [].
Proof.
  split; [|split; [|reflexivity]].
  - intros [entries|] e; simpl.
    + rewrite filter_In, fnmatch_qb_txt_spec. split.
      * intros [H1 H2]. eauto.
      * intros (es & [= <-] & H1 & H2). auto.
    + split; [contradiction | intros (es & H & _); discriminate].
  - intros es1 es2. simpl. apply filter_app.
Qed.

Lemma selected_data_dir fs :
  glob (data_dir fs) <> [] -> selected fs = glob (data_dir fs).
Proof. unfold selected. destruct (glob (data_dir fs)); [congruence | reflexivity]. Qed.

(** X8. The working directory is a fallback and no more: when the data
    directory has a matching file, the run is the same whatever the
    working directory holds, also when the engine fails; when it has
    none, the database is left as by a run on the matching files of the
    working directory. *)
Theorem working_directory_is_a_fallback fs faults bs d c :
  (glob (data_dir fs) <> [] ->
   parse_and_import_data_with unicode_decimal fs faults bs (initial_world d) =
   parse_and_import_data_with unicode_decimal {| data_dir := data_dir fs; cwd := c |}
     faults bs (initial_world d)) /\
  (glob (data_dir fs) = [] ->
   ingest unicode_decimal fs bs d =
   ingest unicode_decimal {| data_dir := cwd fs; cwd := None |} bs d).
Proof.
  split.
  - intros H. unfold parse_and_import_data_with, import_body. simpl data_dir.
    destruct (glob (data_dir fs)); [congruence | reflexivity].
  - intros H. rewrite !ingest_no_faults. cbv zeta.
    assert (E : selected {| data_dir := cwd fs; cwd := None |} = selected fs).
    { unfold selected. simpl. rewrite H. now destruct (glob (cwd fs)). }
    unfold all_records. now rewrite E.
Qed.

End Selection.

(** ** The schema *)

Section Schema.

Variable faults : nat -> option nat.

(** X9. [setup_database] on a fresh connection never touches the rows,
    whatever fails.  When it returns, the table and the index exist with
    the rows the table had, the line of success is printed and no
    transaction is open; when it raises, the line is not printed.  On a
    database that has the schema it changes nothing. *)
Theorem setup_database_keeps_rows w :
  conn w = Connected None ->
  let '(r, w') := setup_database faults w in
  rows_of (disk w') = rows_of (disk w) /\
  (r = Ok tt ->
   disk w' = Some {| rows := rows_of (disk w); indexed := true |} /\
   conn w' = Connected None /\
   stdout w' = stdout w ++ [MsgSchemaCreated]) /\
  (r <> Ok tt -> r = Raise SqliteError /\ stdout w' = stdout w) /\
  (forall t, disk w = Some t -> indexed t = true -> disk w' = disk w).
Proof.
  intros Hc.
  unfold setup_database, execute_create_table, execute_create_index, statement, commit,
    bind, print, log_op.
  rewrite Hc. cbn [oplog disk conn stdout].
  destruct (faults (length (oplog w))).
  { simpl. repeat split; try congruence. }
  destruct (disk w) as [t|] eqn:Hd; cbn [create_table oplog disk conn stdout].
  - destruct (faults (length (oplog w ++ _))).
    { simpl. repeat split; try congruence. }
    cbn [create_index oplog disk conn stdout].
    destruct (faults (length ((oplog w ++ _) ++ _))).
    { simpl. repeat split; try congruence.
      intros t0 Ht Hi. injection Ht as Ht. subst t0. destruct t as [rs i].
      simpl in Hi. now subst i. }
    simpl. repeat split; try congruence.
    intros t0 Ht Hi. injection Ht as Ht. subst t0. destruct t as [rs i].
    simpl in Hi. now subst i.
  - destruct (faults (length (oplog w ++ _))).
    { simpl. repeat split; try congruence. }
    cbn [create_index oplog disk conn stdout].
    destruct (faults (length ((oplog w ++ _) ++ _))).
    { simpl. repeat split; try congruence. }
    simpl. repeat split; try congruence.
Qed.

End Schema.

(** ** What a run prints *)

Section Output.

Variable unicode_decimal : char -> bool.
Variable batch_size : Z.
Variable base : list record.

Lemma progress_lines_S before count :
  progress_lines batch_size before (S count) =
  (if flushes_at batch_size (S before)
   then [MsgImportedSoFar (Z.of_nat (S before))] else [])
  ++ progress_lines batch_size (S before) count.
Proof. reflexivity. Qed.

Lemma process_record_stdout recs st m w :
  between_records batch_size base recs st w ->
  stdout (snd (process_record no_faults batch_size st m w)) =
  stdout w ++ (if flushes_at batch_size (S (length recs))
               then [MsgImportedSoFar (Z.of_nat (S (length recs)))] else []).
Proof.
  intros (Hc & Hd & Hb & Ht & Hs).
  unfold process_record, flush_if_full, flushes_at.
  destruct m as [phone u].
  assert (Hlen : length (batch_data (append_record st (phone, u)))
                 = length recs - committed_count batch_size (length recs) + 1).
  { simpl. rewrite Hb, length_app, length_skipn. simpl. lia. }
  rewrite Hlen.
  destruct (Z.of_nat (length recs - committed_count batch_size (length recs) + 1)
            >=? batch_size)%Z eqn:Hfull.
  - apply committed_count_flush in Hfull. rewrite Hfull, Nat.eqb_refl.
    rewrite (flush_no_faults _ w _ _ Hc Hd). unfold bind, print, ret. simpl.
    rewrite Ht. do 3 f_equal. lia.
  - apply committed_count_keep in Hfull. rewrite Hfull.
    pose proof (committed_count_le batch_size (length recs)) as Hle.
    assert (E : Nat.eqb (committed_count batch_size (length recs)) (S (length recs)) = false)
      by (apply Nat.eqb_neq; lia).
    rewrite E. simpl. now rewrite app_nil_r.
Qed.

Lemma records_loop_stdout ms : forall recs st w,
  between_records batch_size base recs st w ->
  stdout (snd (for_each (process_record no_faults batch_size) ms st w)) =
  stdout w ++ progress_lines batch_size (length recs) (length ms).
Proof.
  induction ms as [|m ms IH]; intros recs st w Hinv.
  - simpl. now rewrite app_nil_r.
  - simpl for_each. unfold bind.
    pose proof (process_record_no_faults batch_size base recs st m w Hinv) as Hstep.
    pose proof (process_record_stdout recs st m w Hinv) as Hout.
    destruct (process_record no_faults batch_size st m w) as [[st1|e] w1];
      [|contradiction].
    simpl in Hout. rewrite (IH _ st1 w1 Hstep), Hout.
    rewrite length_app. simpl length.
    replace (length recs + 1) with (S (length recs)) by lia.
    rewrite progress_lines_S, <- app_assoc. reflexivity.
Qed.

Lemma files_loop_stdout files : forall recs st w,
  between_records batch_size base recs st w ->
  stdout (snd (for_each (process_file unicode_decimal no_faults batch_size) files st w)) =
  stdout w ++ file_lines unicode_decimal batch_size files (length recs).
Proof.
  induction files as [|e files IH]; intros recs st w Hinv.
  - simpl. now rewrite app_nil_r.
  - simpl for_each. unfold bind at 1. unfold process_file at 1. unfold bind at 1.
    simpl print. cbv beta iota. unfold bind at 1. unfold open_and_read.
    simpl file_lines.
    pose proof (between_records_print batch_size base recs st w (MsgProcessing (name e)) Hinv)
      as Hinv'.
    destruct (state e) as [raw| |]; simpl.
    + pose proof (records_loop_no_faults batch_size base
                    (findall unicode_decimal (read_text raw)) recs st _ Hinv') as Hloop.
      pose proof (records_loop_stdout (findall unicode_decimal (read_text raw))
                    recs st _ Hinv') as Hout.
      destruct (for_each (process_record no_faults batch_size)
                  (findall unicode_decimal (read_text raw)) st _) as [[st1|x] w1];
        [|contradiction].
      simpl in Hout. rewrite (IH _ st1 w1 Hloop), Hout.
      rewrite length_app, length_map. simpl. rewrite <- !app_assoc. reflexivity.
    + reflexivity.
    + reflexivity.
Qed.

End Output.

Section OutputOfARun.

Variable unicode_decimal : char -> bool.
Variable fs : filesystem.
Variable batch_size : Z.

Lemma import_files_stdout base files w :
  conn w = Connected None ->
  disk w = Some {| rows := base; indexed := true |} ->
  sent (oplog w) = [] ->
  stdout (snd (import_files unicode_decimal no_faults batch_size files w)) =
  stdout w ++ file_lines unicode_decimal batch_size files 0
  ++ match snd (contents_until_error files) with
     | None => [MsgImportComplete
                  (Z.of_nat (length (records_of unicode_decimal
                                       (fst (contents_until_error files)))))]
     | Some _ => []
     end.
Proof.
  intros Hc Hd Hs.
  pose proof (between_records_start batch_size base w Hc Hd Hs) as Hstart.
  pose proof (files_loop_no_faults unicode_decimal batch_size base files [] _ w Hstart)
    as Hloop.
  pose proof (files_loop_stdout unicode_decimal batch_size base files [] _ w Hstart)
    as Hout.
  unfold import_files, bind at 1.
  destruct (for_each (process_file unicode_decimal no_faults batch_size) files _ w)
    as [[st'|e] w']; simpl app in Hloop; simpl in Hout.
  - destruct Hloop as (Herr & Hc' & Hd' & Hb' & Ht' & Hs'). rewrite Herr.
    destruct (batch_data st') as [|r b] eqn:Hbatch.
    + unfold bind, ret, print. simpl. rewrite Hout, Ht', <- app_assoc. reflexivity.
    + unfold bind. rewrite (executemany_no_faults _ w' _ Hc' Hd').
      erewrite commit_no_faults by reflexivity.
      unfold print. simpl. rewrite Hout, Ht', <- app_assoc. reflexivity.
  - destruct Hloop as (Herr & _). rewrite Herr. simpl. now rewrite app_nil_r.
Qed.

Lemma import_body_stdout d out :
  stdout (snd (import_body unicode_decimal fs no_faults batch_size
                 {| disk := d; conn := NoConnection; stdout := out; oplog := [] |})) =
  (out ++ [MsgSchemaCreated])
  ++ match glob (data_dir fs) with
     | [] => [MsgNoFilesInDataDir]
     | _ => []
     end
  ++ match selected fs with
     | [] => [MsgNoFilesInCwd]
     | files =>
       file_lines unicode_decimal batch_size files 0
       ++ match snd (contents_until_error files) with
          | None => [MsgImportComplete (Z.of_nat (length (all_records unicode_decimal fs)))]
          | Some _ => []
          end
     end.
Proof.
  unfold import_body. rewrite prelude_no_faults. unfold all_records, selected.
  destruct (glob (data_dir fs)) as [|e files].
  - unfold bind at 1, print at 1. cbv beta iota. cbn [disk conn stdout oplog].
    destruct (glob (cwd fs)) as [|e files].
    + simpl. rewrite <- !app_assoc. reflexivity.
    + rewrite (import_files_stdout (rows_of d)) by reflexivity.
      simpl stdout. rewrite <- !app_assoc. reflexivity.
  - cbv beta iota. rewrite (import_files_stdout (rows_of d)) by reflexivity.
    simpl stdout. rewrite <- !app_assoc. reflexivity.
Qed.

(** The whole output of a run in which the engine does not fail. *)
Lemma run_stdout d :
  stdout (snd (parse_and_import_data_with unicode_decimal fs no_faults batch_size
                 (initial_world d))) =
  expected_stdout unicode_decimal fs batch_size.
Proof.
  unfold parse_and_import_data_with, bind at 1. simpl print. cbv beta iota.
  unfold initial_world. simpl.
  unfold try_finally, try_except.
  pose proof (import_body_no_faults unicode_decimal fs batch_size d [MsgConnecting])
    as Hbody.
  pose proof (import_body_stdout d [MsgConnecting]) as Hout.
  cbv zeta in Hbody.
  destruct (import_body unicode_decimal fs no_faults batch_size _) as [[[]|e] w'].
  - destruct Hbody as (Herr & Hc & _). cbn [snd] in Hout.
    unfold close_if_connected. rewrite Hc. cbn [snd stdout]. rewrite Hout. clear Hout.
    unfold expected_stdout. revert Herr.
    destruct (glob (data_dir fs)); destruct (selected fs); intros Herr;
      try rewrite Herr; reflexivity.
  - destruct Hbody as (Herr & Hc & _). cbn [snd] in Hout.
    assert (Hsel : selected fs <> []).
    { intros E. rewrite E in Herr. discriminate. }
    destruct (contents_until_error_exn _ _ Herr) as [-> | ->];
      unfold handlers, bind, print, sys_exit, raise, close_if_connected;
      cbn [snd stdout conn disk oplog]; rewrite Hc; cbn [snd stdout]; rewrite Hout;
      clear Hout; unfold expected_stdout; revert Herr Hsel;
      destruct (glob (data_dir fs)); destruct (selected fs); intros Herr Hsel;
      try congruence; rewrite Herr;
      rewrite <- ?app_assoc; simpl; rewrite ?app_nil_r; reflexivity.
Qed.

End OutputOfARun.

Section Reports.

Variable unicode_decimal : char -> bool.
Variable fs : filesystem.
Variable batch_size : Z.

Lemma upsert_all_length_le p : forall rs,
  length (upsert_all rs p) <= length rs + length p.
Proof.
  induction p as [|r p IH]; intros rs; simpl; [lia|].
  etransitivity; [apply IH|]. unfold insert_or_replace. rewrite length_app. simpl.
  pose proof (length_filter_le (fun r' => negb (same_uid (uid r) r')) rs). lia.
Qed.

Lemma records_of_cons c cs :
  length (records_of unicode_decimal (c :: cs)) =
  length (findall unicode_decimal c) + length (records_of unicode_decimal cs).
Proof. unfold records_of. simpl. now rewrite map_app, length_app, !length_map. Qed.

Lemma flushes_at_mod i :
  (0 < batch_size)%Z ->
  flushes_at batch_size i = true <-> (Z.of_nat i mod batch_size = 0)%Z.
Proof.
  intros Hpos. unfold flushes_at, committed_count.
  assert (Hbs : (batch_size <=? 0)%Z = false) by (apply Z.leb_gt; lia).
  rewrite Hbs, Nat.eqb_eq.
  set (b := Z.to_nat batch_size). assert (Hb : b <> 0) by (unfold b; lia).
  assert (E : (Z.of_nat i mod batch_size)%Z = Z.of_nat (i mod b)).
  { unfold b. rewrite Nat2Z.inj_mod, Z2Nat.id by lia. reflexivity. }
  rewrite E. pose proof (Nat.Div0.mod_le i b). lia.
Qed.

Lemma committed_count_whole_batches n :
  (0 < batch_size)%Z ->
  (Z.of_nat (committed_count batch_size n) mod batch_size = 0)%Z /\
  (Z.of_nat (n - committed_count batch_size n) < batch_size)%Z.
Proof.
  intros Hpos. unfold committed_count.
  assert (Hbs : (batch_size <=? 0)%Z = false) by (apply Z.leb_gt; lia).
  rewrite Hbs. set (b := Z.to_nat batch_size). assert (Hb : b <> 0) by (unfold b; lia).
  pose proof (Nat.div_mod_eq n b) as Hn.
  pose proof (Nat.mod_upper_bound n b Hb) as Hlt.
  pose proof (Nat.Div0.mod_le n b) as Hle.
  replace (n - n mod b) with (b * (n / b)) by lia. split.
  - rewrite Nat2Z.inj_mul. unfold b. rewrite Z2Nat.id by lia.
    rewrite Z.mul_comm. apply Z_mod_mult.
  - replace (n - b * (n / b)) with (n mod b) by lia. unfold b in *. lia.
Qed.

Lemma in_progress_lines before count k :
  In (MsgImportedSoFar k) (progress_lines batch_size before count) <->
  exists i, before < i <= before + count /\ flushes_at batch_size i = true /\ k = Z.of_nat i.
Proof.
  unfold progress_lines. rewrite in_flat_map. split.
  - intros (i & Hi & Hin). apply in_seq in Hi.
    destruct (flushes_at batch_size i) eqn:Hf; [|contradiction].
    destruct Hin as [[= <-] | []]. exists i. repeat split; try lia. assumption.
  - intros (i & Hi & Hf & ->). exists i. split; [apply in_seq; lia|].
    rewrite Hf. now left.
Qed.

Lemma in_file_lines files : forall before k,
  In (MsgImportedSoFar k) (file_lines unicode_decimal batch_size files before) <->
  exists i,
    before < i <= before + length (records_of unicode_decimal
                                     (fst (contents_until_error files))) /\
    flushes_at batch_size i = true /\ k = Z.of_nat i.
Proof.
  induction files as [|e files IH]; intros before k; simpl.
  - split; [contradiction|]. intros (i & Hi & _). unfold records_of in Hi. simpl in Hi. lia.
  - destruct (state e) as [raw| |].
    + destruct (contents_until_error files) as [cs err] eqn:Hcue. simpl fst in *.
      rewrite records_of_cons.
      split.
      * intros [H | H]; [discriminate|]. apply in_app_or in H. destruct H as [H | H].
        -- apply in_progress_lines in H. destruct H as (i & Hi & Hf & ->).
           exists i. repeat split; try lia. assumption.
        -- apply IH in H. destruct H as (i & Hi & Hf & ->).
           exists i. repeat split; try lia. assumption.
      * intros (i & Hi & Hf & ->). right. apply in_or_app.
        destruct (Nat.le_gt_cases i
                    (before + length (findall unicode_decimal (read_text raw)))) as [Hle | Hgt].
        -- left. apply in_progress_lines. exists i. repeat split; try lia. assumption.
        -- right. apply IH. exists i. repeat split; try lia. assumption.
    + split.
      * intros [H | []]. discriminate.
      * intros (i & Hi & _). unfold records_of in Hi. simpl in Hi. lia.
    + split.
      * intros [H | []]. discriminate.
      * intros (i & Hi & _). unfold records_of in Hi. simpl in Hi. lia.
Qed.

(** X10. When the run completes, its last line reports the number of
    matches of all files, each match counted, also those of a uid that
    occurs again: the table grows by at most the total reported. *)
Theorem reported_total_counts_matches d :
  all_readable fs -> selected fs <> [] ->
  let w := snd (parse_and_import_data_with unicode_decimal fs no_faults batch_size
                  (initial_world d)) in
  let total := length (concat (map (findall unicode_decimal)
                                   (fst (contents_until_error (selected fs))))) in
  last (stdout w) MsgConnecting = MsgImportComplete (Z.of_nat total) /\
  length (rows_of (disk w)) <= length (rows_of d) + total.
Proof.
  intros Hread Hsel w total.
  assert (Ht : total = length (all_records unicode_decimal fs)).
  { unfold total, all_records, records_of. now rewrite length_map. }
  split.
  - unfold w. rewrite run_stdout. unfold expected_stdout.
    unfold all_readable in Hread. revert Hread Hsel.
    destruct (selected fs) as [|e l] eqn:E; intros Hread Hsel; [congruence|].
    rewrite Hread, Ht, !app_assoc. apply last_last.
  - change (disk w) with (ingest unicode_decimal fs batch_size d).
    rewrite ingest_no_faults. unfold all_readable in Hread. rewrite Hread.
    simpl rows_of. rewrite Ht. apply upsert_all_length_le.
Qed.

(** X11. With a positive batch size, a run in which the engine does not
    fail prints a progress line for the running totals that are
    multiples of the batch size, and for no other: one line for each
    batch that was flushed because it was full. *)
Theorem progress_lines_are_the_full_batches d k :
  (0 < batch_size)%Z ->
  let w := snd (parse_and_import_data_with unicode_decimal fs no_faults batch_size
                  (initial_world d)) in
  In (MsgImportedSoFar k) (stdout w) <->
  (0 < k <= Z.of_nat (length (all_records unicode_decimal fs)))%Z /\
  (k mod batch_size = 0)%Z.
Proof.
  intros Hpos w. unfold w. rewrite run_stdout. unfold expected_stdout, all_records.
  assert (Hfiles : forall files,
             In (MsgImportedSoFar k)
                (file_lines unicode_decimal batch_size files 0
                 ++ match snd (contents_until_error files) with
                    | None => [MsgImportComplete
                                 (Z.of_nat (length (records_of unicode_decimal
                                                      (fst (contents_until_error files)))))]
                    | Some FileNotFoundError => [MsgDirectoryNotFound]
                    | Some _ => []
                    end) <->
             (0 < k <= Z.of_nat (length (records_of unicode_decimal
                                           (fst (contents_until_error files)))))%Z /\
             (k mod batch_size = 0)%Z).
  { intros files. rewrite in_app_iff, in_file_lines. split.
    - intros [(i & Hi & Hf & ->) | H].
      + apply flushes_at_mod in Hf; [|assumption]. split; [lia | assumption].
      + exfalso.
        destruct (snd (contents_until_error files)) as [[]|]; simpl in H;
          try contradiction; destruct H as [H | H]; (discriminate || contradiction).
    - intros [Hk Hm]. left. exists (Z.to_nat k). split; [lia|]. split; [|lia].
      apply flushes_at_mod; [assumption|]. now rewrite Z2Nat.id by lia. }
  generalize (selected fs) as files. intros files. specialize (Hfiles files).
  rewrite in_app_iff. rewrite in_app_iff.
  assert (H1 : ~ In (MsgImportedSoFar k) [MsgConnecting; MsgSchemaCreated])
    by (simpl; intuition discriminate).
  assert (H2 : ~ In (MsgImportedSoFar k)
                 (match glob (data_dir fs) with
                  | [] => [MsgNoFilesInDataDir]
                  | _ => []
                  end))
    by (destruct (glob (data_dir fs)); simpl; intuition discriminate).
  destruct files as [|e l].
  - split.
    + intros [H | [H | H]]; try contradiction. simpl in H. intuition discriminate.
    + unfold records_of. simpl. lia.
  - rewrite <- Hfiles. tauto.
Qed.

(** X12. A data file that the glob lists and [open] does not find ends
    the run with status 1 and with the line that says the directory was
    not found, although the directory was listed. *)
Theorem vanished_file_is_reported_as_missing_directory d :
  snd (contents_until_error (selected fs)) = Some FileNotFoundError ->
  let '(r, w) := parse_and_import_data_with unicode_decimal fs no_faults batch_size
                   (initial_world d) in
  r = Raise (SystemExit 1) /\
  last (stdout w) MsgConnecting = MsgDirectoryNotFound /\
  (exists e, In e (selected fs) /\ state e = Dangling) /\
  (data_dir fs <> None \/ cwd fs <> None).
Proof.
  intros Herr.
  pose proof (run_no_faults unicode_decimal fs batch_size d) as Hrun.
  pose proof (run_stdout unicode_decimal fs batch_size d) as Hout.
  cbv zeta in Hrun.
  destruct (parse_and_import_data_with unicode_decimal fs no_faults batch_size
              (initial_world d)) as [r w].
  rewrite Herr in Hrun. destruct Hrun as (_ & Hr & _). simpl in Hout.
  split; [assumption|]. split; [|split].
  - rewrite Hout. unfold expected_stdout. revert Herr.
    destruct (selected fs) as [|e l]; intros Herr; [discriminate|].
    rewrite Herr, !app_assoc. apply last_last.
  - clear Hout Hr. revert Herr. generalize (selected fs).
    induction l as [|e l IH]; simpl; [discriminate|].
    destruct (state e) eqn:He.
    + destruct (contents_until_error l) as [cs x]. simpl. intros Hx.
      destruct (IH Hx) as (e' & Hin & Hs). eauto.
    + intros _. eauto.
    + discriminate.
  - unfold selected, glob in Herr.
    destruct (data_dir fs); [left; discriminate|].
    destruct (cwd fs); [right; discriminate | discriminate].
Qed.

(** X13. When a file that cannot be read cuts the run short, the table
    holds whole batches only, and fewer records than one batch are
    lost: of the [n] records read before that file the first [k] are
    upserted, with [k] a multiple of the batch size and [n - k] less
    than it. *)
Theorem aborted_run_loses_less_than_a_batch d e :
  (0 < batch_size)%Z ->
  snd (contents_until_error (selected fs)) = Some e ->
  let recs := all_records unicode_decimal fs in
  exists k,
    k <= length recs /\
    (Z.of_nat k mod batch_size = 0)%Z /\
    (Z.of_nat (length recs - k) < batch_size)%Z /\
    rows_of (ingest unicode_decimal fs batch_size d) = upsert_all (rows_of d) (firstn k recs).
Proof.
  intros Hpos Herr recs.
  exists (committed_count batch_size (length recs)).
  destruct (committed_count_whole_batches (length recs) Hpos) as [Hm Hlt].
  split; [apply committed_count_le|]. split; [assumption|]. split; [assumption|].
  rewrite ingest_no_faults, Herr. reflexivity.
Qed.

End Reports.

(** ** The exit status *)

Section ExitStatus.

Variable unicode_decimal : char -> bool.
Variable fs : filesystem.
Variable faults : nat -> option nat.
Variable batch_size : Z.

Lemma statement_raises_sqlite o begins run partial w e w' :
  statement faults o begins run partial w = (Raise e, w') -> e = SqliteError.
Proof.
  unfold statement. destruct (conn w); try (now intros [= <- _]).
  destruct (faults (length (oplog w))); [now intros [= <- _]|].
  destruct (run _); [discriminate | now intros [= <- _]].
Qed.

Lemma commit_raises_sqlite w e w' :
  commit faults w = (Raise e, w') -> e = SqliteError.
Proof.
  unfold commit. destruct (conn w) as [|txn|]; try (now intros [= <- _]).
  destruct (faults (length (oplog w))); [now intros [= <- _]|].
  destruct txn; discriminate.
Qed.

Lemma connect_raises_sqlite w e w' :
  connect faults w = (Raise e, w') -> e = SqliteError.
Proof.
  unfold connect. destruct (faults (length (oplog w))); [now intros [= <- _] | discriminate].
Qed.

Lemma flush_if_full_raises_sqlite st w e w' :
  flush_if_full faults batch_size st w = (Raise e, w') -> e = SqliteError.
Proof.
  unfold flush_if_full. destruct (_ >=? _)%Z; [|discriminate].
  unfold bind, print, ret, executemany.
  destruct (statement faults _ _ _ _ w) as [[[]|x] w1] eqn:H1.
  - destruct (commit faults w1) as [[[]|y] w2] eqn:H2; [discriminate|].
    intros [= <- _]. now apply commit_raises_sqlite in H2.
  - intros [= <- _]. now apply statement_raises_sqlite in H1.
Qed.

Lemma records_loop_raises_sqlite ms : forall st w e w',
  for_each (process_record faults batch_size) ms st w = (Raise e, w') -> e = SqliteError.
Proof.
  induction ms as [|m ms IH]; intros st w e w'; simpl; [discriminate|].
  unfold bind, process_record.
  destruct (flush_if_full faults batch_size (append_record st m) w) as [[st1|x] w1] eqn:H1.
  - apply IH.
  - intros [= <- _]. now apply flush_if_full_raises_sqlite in H1.
Qed.

Lemma files_loop_exn files : forall st w,
  match for_each (process_file unicode_decimal faults batch_size) files st w with
  | (Ok _, _) => snd (contents_until_error files) = None
  | (Raise e, _) => e = SqliteError \/ snd (contents_until_error files) = Some e
  end.
Proof.
  induction files as [|x files IH]; intros st w; simpl; [reflexivity|].
  unfold bind at 1. unfold process_file at 1. unfold bind at 1. unfold print at 1.
  cbv beta iota. unfold bind at 1. unfold open_and_read.
  destruct (state x) as [raw| |]; simpl.
  - destruct (for_each (process_record faults batch_size) _ st _) as [[st1|e] w1] eqn:H1.
    + specialize (IH st1 w1).
      destruct (for_each (process_file unicode_decimal faults batch_size) files st1 w1)
        as [[st2|e] w2]; destruct (contents_until_error files) as [cs err]; exact IH.
    + left. now apply records_loop_raises_sqlite in H1.
  - now right.
  - now right.
Qed.

Lemma import_files_exn files w :
  match import_files unicode_decimal faults batch_size files w with
  | (Ok _, _) => snd (contents_until_error files) = None
  | (Raise e, _) => e = SqliteError \/ snd (contents_until_error files) = Some e
  end.
Proof.
  unfold import_files, bind at 1.
  pose proof (files_loop_exn files {| total_records := 0; batch_data := [] |} w) as H.
  destruct (for_each (process_file unicode_decimal faults batch_size) files _ w)
    as [[st|e] w1]; [|exact H].
  unfold bind at 1.
  destruct (batch_data st) as [|r b].
  - simpl. exact H.
  - unfold bind, print, executemany.
    destruct (statement faults _ _ _ _ w1) as [[[]|x] w2] eqn:H1.
    + destruct (commit faults w2) as [[[]|y] w3] eqn:H2; [exact H|].
      left. now apply commit_raises_sqlite in H2.
    + left. now apply statement_raises_sqlite in H1.
Qed.

Lemma import_body_exn w :
  match import_body unicode_decimal fs faults batch_size w with
  | (Ok _, _) => snd (contents_until_error (selected fs)) = None
  | (Raise e, _) => e = SqliteError \/ snd (contents_until_error (selected fs)) = Some e
  end.
Proof.
  unfold import_body, bind at 1.
  destruct (connect faults w) as [[[]|x] w1] eqn:H1;
    [|left; now apply connect_raises_sqlite in H1].
  unfold bind at 1.
  destruct (setup_database faults w1) as [[[]|x] w2] eqn:H2.
  - unfold selected. destruct (glob (data_dir fs)) as [|e files].
    + unfold bind at 1, print at 1. cbv beta iota.
      destruct (glob (cwd fs)) as [|e files]; [reflexivity | apply import_files_exn].
    + apply import_files_exn.
  - left. revert H2. unfold setup_database, bind, print, execute_create_table,
      execute_create_index.
    destruct (statement faults OpCreateTable _ _ _ w1) as [[[]|y] w3] eqn:Ha;
      [|intros [= <- _]; now apply statement_raises_sqlite in Ha].
    destruct (statement faults OpCreateIndex _ _ _ w3) as [[[]|y] w4] eqn:Hb;
      [|intros [= <- _]; now apply statement_raises_sqlite in Hb].
    destruct (commit faults w4) as [[[]|y] w5] eqn:Hc;
      [discriminate | intros [= <- _]; now apply commit_raises_sqlite in Hc].
Qed.

Lemma failed_last_not_clean log : failed_last log -> ~ clean log.
Proof.
  intros (log' & e & -> & He & _) Hc. apply Forall_app in Hc. destruct Hc as [_ Hc].
  inversion Hc; subst. congruence.
Qed.

End ExitStatus.

(** X14. The exit status of the script is 0 or 1, whatever the files
    hold and whatever the engine does, and it is 0 in one case only: no
    call into the engine raised and every selected file could be read. *)
Theorem exit_status_is_zero_iff unicode_decimal fs faults d :
  let '(status, w) := main unicode_decimal fs faults d in
  (status = 0%Z \/ status = 1%Z) /\
  (status = 0%Z <-> clean (oplog w) /\ all_readable fs).
Proof.
  unfold main. generalize (engine fs faults) as calls. intros calls.
  unfold parse_and_import_data, parse_and_import_data_with, bind at 1, print at 1,
    initial_world. cbv beta iota. cbn [disk conn stdout oplog app].
  unfold try_finally, try_except, all_readable.
  pose proof (import_body_spec unicode_decimal fs calls BATCH_SIZE (rows_of d)
                {| disk := d; conn := NoConnection; stdout := [MsgConnecting]; oplog := [] |}
                (conj eq_refl (conj eq_refl eq_refl))) as Hspec.
  pose proof (import_body_exn unicode_decimal fs calls BATCH_SIZE
                {| disk := d; conn := NoConnection; stdout := [MsgConnecting]; oplog := [] |})
    as Hexn.
  destruct (import_body unicode_decimal fs calls BATCH_SIZE _) as [[[]|e] w'].
  - destruct Hspec as (Hc & _ & Hclean & _).
    unfold close_if_connected. rewrite Hc. simpl. tauto.
  - destruct Hspec as [_ Hab].
    destruct e; simpl in Hab.
    + (* SqliteError *)
      unfold handlers, bind, print, sys_exit, raise.
      destruct (close_if_connected _) as [[[]|x] w''] eqn:Hcl;
        unfold close_if_connected in Hcl; simpl in Hcl;
        destruct (conn w'); inversion Hcl; subst; simpl;
        (split; [now right|]); (split; [discriminate|]);
        intros [Hcl' _]; now apply failed_last_not_clean in Hab.
    + (* FileNotFoundError *)
      destruct Hexn as [Hexn | Hexn]; [discriminate|].
      unfold handlers, bind, print, sys_exit, raise.
      destruct (close_if_connected _) as [[[]|x] w''] eqn:Hcl;
        unfold close_if_connected in Hcl; simpl in Hcl;
        destruct (conn w'); inversion Hcl; subst; simpl;
        (split; [now right|]); (split; [discriminate|]);
        intros [_ Hr]; congruence.
    + (* OtherOSError *)
      destruct Hexn as [Hexn | Hexn]; [discriminate|].
      unfold handlers, raise.
      destruct (close_if_connected _) as [[[]|x] w''] eqn:Hcl;
        unfold close_if_connected in Hcl; simpl in Hcl;
        destruct (conn w'); inversion Hcl; subst; simpl;
        (split; [now right|]); (split; [discriminate|]);
        intros [_ Hr]; congruence.
    + contradiction.
Qed.

(** ** Running again after a failure *)

Section Recovery.

Variable unicode_decimal : char -> bool.
Variable fs : filesystem.
Variable faults : nat -> option nat.
Variable batch_size : Z.

(** The records of the files. *)
Variable all : list record.

Lemma statement_log o begins run partial w :
  exists f,
    oplog (snd (statement faults o begins run partial w)) =
    oplog w ++ [{| op := o; raised := f |}].
Proof.
  unfold statement, log_op. destruct (conn w) as [|txn|]; simpl; eauto.
  destruct (faults (length (oplog w))).
  - destruct txn; [|destruct begins]; simpl; eauto.
  - destruct (run _); destruct txn; try destruct begins; simpl; eauto.
Qed.

Lemma commit_log w :
  exists f, oplog (snd (commit faults w)) = oplog w ++ [{| op := OpCommit; raised := f |}].
Proof.
  unfold commit, log_op. destruct (conn w) as [|txn|]; simpl; eauto.
  destruct (faults (length (oplog w))); [|destruct txn]; simpl; eauto.
Qed.

Lemma sent_snoc log o f :
  sent (log ++ [{| op := o; raised := f |}]) =
  sent log ++ match o with OpExecuteMany b => b | _ => [] end.
Proof.
  rewrite sent_app. unfold sent. simpl. unfold batch_of. simpl.
  now rewrite app_nil_r.
Qed.

Lemma flush_sent b w :
  incl b all -> incl (sent (oplog w)) all ->
  incl (sent (oplog (snd ((executemany faults b ;; commit faults)%imp w)))) all.
Proof.
  intros Hb Hs. unfold bind, executemany.
  destruct (statement_log (OpExecuteMany b) true (insert_many b)
              (fun k d => match insert_many (firstn k b) d with
                          | Some v => v
                          | None => d
                          end) w) as [f Hf].
  destruct (statement faults _ _ _ _ w) as [[[]|x] w1]; simpl in *.
  - destruct (commit_log w1) as [g Hg]. rewrite Hg, Hf, !sent_snoc, app_nil_r.
    now apply incl_app.
  - rewrite Hf, sent_snoc. now apply incl_app.
Qed.

Lemma flush_if_full_sent st w :
  incl (batch_data st) all -> incl (sent (oplog w)) all ->
  let '(r, w') := flush_if_full faults batch_size st w in
  incl (sent (oplog w')) all /\
  match r with
  | Ok st' => incl (batch_data st') all
  | Raise _ => True
  end.
Proof.
  intros Hb Hs. unfold flush_if_full. destruct (_ >=? _)%Z.
  - pose proof (flush_sent (batch_data st) w Hb Hs) as H. revert H.
    unfold bind, print, ret.
    destruct (executemany faults (batch_data st) w) as [[[]|x] w1]; simpl.
    + destruct (commit faults w1) as [[[]|y] w2]; simpl; intros H; split; auto.
      intros r Hr. contradiction.
    + auto.
  - simpl. auto.
Qed.

Lemma records_loop_sent ms : forall st w,
  incl (map (fun m => (snd m, fst m)) ms) all ->
  incl (batch_data st) all -> incl (sent (oplog w)) all ->
  let '(r, w') := for_each (process_record faults batch_size) ms st w in
  incl (sent (oplog w')) all /\
  match r with
  | Ok st' => incl (batch_data st') all
  | Raise _ => True
  end.
Proof.
  induction ms as [|m ms IH]; intros st w Hms Hb Hs; simpl; [auto|].
  unfold bind, process_record.
  assert (Hb1 : incl (batch_data (append_record st m)) all).
  { destruct m as [phone u]. simpl in *. apply incl_app; [assumption|].
    intros r [<- | []]. apply Hms. now left. }
  pose proof (flush_if_full_sent (append_record st m) w Hb1 Hs) as H.
  destruct (flush_if_full faults batch_size (append_record st m) w) as [[st1|x] w1].
  - destruct H as [Hs1 Hb2]. apply IH; try assumption.
    intros r Hr. apply Hms. now right.
  - destruct H as [Hs1 _]. auto.
Qed.

Lemma files_loop_sent files : forall st w,
  (forall e raw m, In e files -> state e = Readable raw ->
                   In m (findall unicode_decimal (read_text raw)) ->
                   In (snd m, fst m) all) ->
  incl (batch_data st) all -> incl (sent (oplog w)) all ->
  let '(r, w') := for_each (process_file unicode_decimal faults batch_size) files st w in
  incl (sent (oplog w')) all /\
  match r with
  | Ok st' => incl (batch_data st') all
  | Raise _ => True
  end.
Proof.
  induction files as [|e files IH]; intros st w Hall Hb Hs; simpl; [auto|].
  unfold bind at 1. unfold process_file at 1. unfold bind at 1. unfold print at 1.
  cbv beta iota. unfold bind at 1. unfold open_and_read.
  destruct (state e) as [raw| |] eqn:He; simpl; auto.
  assert (Hms : incl (map (fun m => (snd m, fst m))
                          (findall unicode_decimal (read_text raw))) all).
  { intros r Hr. apply in_map_iff in Hr. destruct Hr as (m & <- & Hm).
    apply (Hall e raw m); auto. now left. }
  pose proof (records_loop_sent (findall unicode_decimal (read_text raw)) st
                {| disk := disk w; conn := conn w;
                   stdout := stdout w ++ [MsgProcessing (name e)]; oplog := oplog w |}
                Hms Hb Hs) as H.
  destruct (for_each (process_record faults batch_size) _ st _) as [[st1|x] w1].
  - destruct H as [Hs1 Hb1]. apply IH; try assumption.
    intros e' raw' m Hin. apply Hall. now right.
  - destruct H as [Hs1 _]. auto.
Qed.

Lemma import_files_sent files w :
  (forall e raw m, In e files -> state e = Readable raw ->
                   In m (findall unicode_decimal (read_text raw)) ->
                   In (snd m, fst m) all) ->
  incl (sent (oplog w)) all ->
  incl (sent (oplog (snd (import_files unicode_decimal faults batch_size files w)))) all.
Proof.
  intros Hall Hs. unfold import_files, bind at 1.
  pose proof (files_loop_sent files {| total_records := 0; batch_data := [] |} w Hall
                (fun r (H : In r []) => match H with end) Hs) as H.
  destruct (for_each (process_file unicode_decimal faults batch_size) files _ w)
    as [[st|x] w1]; [|tauto].
  destruct H as [Hs1 Hb1]. unfold bind at 1.
  destruct (batch_data st) as [|r b] eqn:Hbatch.
  - simpl. assumption.
  - pose proof (flush_sent (r :: b) w1 Hb1 Hs1) as H.
    destruct ((executemany faults (r :: b) ;; commit faults)%imp w1) as [[[]|y] w2];
      simpl in *; assumption.
Qed.

Lemma connect_log w :
  exists f, oplog (snd (connect faults w)) = oplog w ++ [{| op := OpConnect; raised := f |}].
Proof. unfold connect, log_op. destruct (faults (length (oplog w))); simpl; eauto. Qed.

Lemma setup_database_sent w :
  incl (sent (oplog w)) all -> incl (sent (oplog (snd (setup_database faults w)))) all.
Proof.
  intros Hs. unfold setup_database, bind, print, execute_create_table, execute_create_index.
  destruct (statement_log OpCreateTable false create_table (fun _ d => d) w) as [f Hf].
  destruct (statement faults OpCreateTable _ _ _ w) as [[[]|x] w1]; simpl in *;
    [|rewrite Hf, sent_snoc, app_nil_r; assumption].
  destruct (statement_log OpCreateIndex false create_index (fun _ d => d) w1) as [g Hg].
  destruct (statement faults OpCreateIndex _ _ _ w1) as [[[]|x] w2]; simpl in *;
    [|rewrite Hg, Hf, !sent_snoc, !app_nil_r; assumption].
  destruct (commit_log w2) as [h Hh].
  destruct (commit faults w2) as [[[]|x] w3]; simpl in *;
    rewrite Hh, Hg, Hf, !sent_snoc, !app_nil_r; assumption.
Qed.

Lemma import_body_sent w :
  (forall e raw m, In e (selected fs) -> state e = Readable raw ->
                   In m (findall unicode_decimal (read_text raw)) ->
                   In (snd m, fst m) all) ->
  incl (sent (oplog w)) all ->
  incl (sent (oplog (snd (import_body unicode_decimal fs faults batch_size w)))) all.
Proof.
  intros Hall Hs. unfold import_body, bind at 1.
  destruct (connect_log w) as [f Hf].
  destruct (connect faults w) as [[[]|x] w1]; simpl in Hf;
    [|simpl; rewrite Hf, sent_snoc, app_nil_r; assumption].
  assert (Hs1 : incl (sent (oplog w1)) all)
    by (rewrite Hf, sent_snoc, app_nil_r; assumption).
  unfold bind at 1.
  pose proof (setup_database_sent w1 Hs1) as Hs2.
  destruct (setup_database faults w1) as [[[]|x] w2]; simpl in Hs2; [|assumption].
  unfold selected in Hall. destruct (glob (data_dir fs)) as [|e files].
  - unfold bind at 1, print at 1. cbv beta iota.
    destruct (glob (cwd fs)) as [|e files]; [simpl; assumption|].
    apply import_files_sent; assumption.
  - apply import_files_sent; assumption.
Qed.

(** Handling the exception and closing the connection call the engine
    no more. *)
Lemma run_log w :
  oplog (snd (parse_and_import_data_with unicode_decimal fs faults batch_size w)) =
  oplog (snd (import_body unicode_decimal fs faults batch_size
                {| disk := disk w; conn := conn w;
                   stdout := stdout w ++ [MsgConnecting]; oplog := oplog w |})).
Proof.
  unfold parse_and_import_data_with, bind at 1, print at 1. cbv beta iota.
  unfold try_finally, try_except.
  destruct (import_body unicode_decimal fs faults batch_size _) as [[[]|e] w1].
  - unfold close_if_connected. destruct (conn w1); reflexivity.
  - destruct e; unfold handlers, bind, print, sys_exit, raise, close_if_connected;
      simpl; destruct (conn w1); reflexivity.
Qed.

End Recovery.

Section RunningAgain.

Variable unicode_decimal : char -> bool.
Variable fs : filesystem.
Variable batch_size : Z.

Lemma replay_sent log : forall c p S,
  incl c S -> incl p S ->
  incl (fst (fold_left log_step log (c, p))) (S ++ sent log) /\
  incl (snd (fold_left log_step log (c, p))) (S ++ sent log).
Proof.
  induction log as [|e log IH]; intros c p S Hc Hp; simpl.
  - unfold sent. simpl. rewrite app_nil_r. auto.
  - assert (E : S ++ sent (e :: log) = (S ++ batch_of e) ++ sent log)
      by (unfold sent; simpl; now rewrite app_assoc).
    rewrite E.
    assert (Hc' : incl c (S ++ batch_of e)) by now apply incl_appl.
    assert (Hp' : incl p (S ++ batch_of e)) by now apply incl_appl.
    unfold log_step at 2 4. unfold batch_of in *.
    destruct (raised e); [now apply IH|].
    destruct (op e); simpl fst; simpl snd; try (now apply IH).
    + apply IH; [assumption|]. apply incl_app; [assumption|]. now apply incl_appr.
    + apply IH; [now apply incl_app|]. intros r [].
Qed.

Lemma committed_incl_sent log : incl (committed log) (sent log).
Proof.
  unfold committed, replay.
  destruct (replay_sent log [] [] [] (incl_refl _) (incl_refl _)) as [H _].
  exact H.
Qed.

Lemma has_uid_incl u c recs :
  has_uid u c = true -> (forall r, In r c -> has_uid (uid r) recs = true) ->
  has_uid u recs = true.
Proof.
  intros H Hc. apply existsb_exists in H. destruct H as (r & Hr & Hu).
  apply same_uid_true in Hu. subst u. now apply Hc.
Qed.

(** A batch whose uids are all written again leaves no trace. *)
Lemma upsert_all_absorbs base c recs :
  (forall r, In r c -> has_uid (uid r) recs = true) ->
  upsert_all (upsert_all base c) recs = upsert_all base recs.
Proof.
  intros Hc.
  rewrite (upsert_all_last_writes recs (upsert_all base c)).
  rewrite (upsert_all_last_writes recs base). f_equal.
  rewrite (upsert_all_last_writes c base), filter_app, filter_filter.
  rewrite (filter_none _ (last_writes c)).
  - rewrite app_nil_r. apply filter_ext. intros x.
    destruct (has_uid (uid x) c) eqn:Hx; simpl; [|reflexivity].
    now rewrite (has_uid_incl _ _ _ Hx Hc).
  - intros r Hr. apply last_writes_has_uid in Hr.
    now rewrite (has_uid_incl _ _ _ Hr Hc).
Qed.

Lemma in_has_uid r recs : In r recs -> has_uid (uid r) recs = true.
Proof.
  intros H. apply existsb_exists. exists r. split; [assumption|].
  now apply same_uid_true.
Qed.

Lemma all_readable_entries files :
  snd (contents_until_error files) = None ->
  forall e, In e files -> exists raw, state e = Readable raw.
Proof.
  induction files as [|x files IH]; simpl; [contradiction|].
  destruct (state x) as [raw| |] eqn:Hx; try discriminate.
  destruct (contents_until_error files) as [cs err]. simpl.
  intros -> e [<- | He]; [eauto | now apply IH].
Qed.

Lemma committed_in_files faults d :
  all_readable fs ->
  incl (committed (oplog (snd (parse_and_import_data_with unicode_decimal fs faults
                                 batch_size (initial_world d)))))
       (all_records unicode_decimal fs).
Proof.
  intros Hall. eapply incl_tran; [apply committed_incl_sent|].
  rewrite run_log. apply import_body_sent; [|intros r []].
  intros e raw m He Hs Hm.
  destruct (contents_all_readable (selected fs) (all_readable_entries _ Hall)) as [_ Hin].
  unfold all_records, records_of. apply in_map_iff. exists m. split; [reflexivity|].
  apply in_concat. exists (findall unicode_decimal (read_text raw)).
  split; [|assumption]. apply in_map. now apply Hin with (e := e).
Qed.

End RunningAgain.

(** X15. A run that was cut short by the storage engine is repaired by
    running the script again: when every selected file can be read, a
    run without failures after a run with any failures leaves the
    database file as a single run without failures would have left it,
    row order included. *)
Theorem rerun_after_failure unicode_decimal fs faults batch_size d :
  all_readable fs ->
  let w := snd (parse_and_import_data_with unicode_decimal fs faults batch_size
                  (initial_world d)) in
  ingest unicode_decimal fs batch_size (disk w) = ingest unicode_decimal fs batch_size d.
Proof.
  intros Hall w.
  pose proof (ingest_no_faults unicode_decimal fs batch_size (disk w)) as H1.
  pose proof (ingest_no_faults unicode_decimal fs batch_size d) as H2.
  cbv zeta in H1, H2. unfold all_readable in Hall. rewrite Hall in H1, H2.
  rewrite H1, H2. do 2 f_equal.
  unfold w. rewrite run_durable. apply upsert_all_absorbs.
  intros r Hr. apply in_has_uid.
  now apply (committed_in_files unicode_decimal fs batch_size faults d Hall).
Qed.

(** ** The files a run names *)

Section Announcements.

Variable unicode_decimal : char -> bool.
Variable batch_size : Z.

Lemma processing_names_app a b :
  processing_names (a ++ b) = processing_names a ++ processing_names b.
Proof. apply flat_map_app. Qed.

Lemma processing_names_progress before count :
  processing_names (progress_lines batch_size before count) = [].
Proof.
  unfold progress_lines. generalize (seq (S before) count) as l.
  induction l as [|i l IH]; [reflexivity|]. simpl flat_map.
  rewrite processing_names_app, IH. now destruct (flushes_at batch_size i).
Qed.

Lemma processing_names_file_lines files : forall before,
  processing_names (file_lines unicode_decimal batch_size files before) =
  map name (firstn (S (length (fst (contents_until_error files)))) files).
Proof.
  induction files as [|e files IH]; intros before; [reflexivity|].
  cbn [file_lines contents_until_error].
  change (processing_names (MsgProcessing (name e) :: ?l))
    with (name e :: processing_names l).
  destruct (state e) as [raw| |]; [|reflexivity|reflexivity].
  rewrite processing_names_app, processing_names_progress, IH.
  now destruct (contents_until_error files) as [cs x].
Qed.

Lemma contents_until_error_none files :
  snd (contents_until_error files) = None ->
  length (fst (contents_until_error files)) = length files.
Proof.
  induction files as [|e files IH]; simpl; [reflexivity|].
  destruct (state e); try discriminate.
  destruct (contents_until_error files) as [cs x]. simpl in *.
  intros H. now rewrite IH.
Qed.

(** The file after those that were read is the one that raised. *)
Lemma contents_until_error_some files x :
  snd (contents_until_error files) = Some x ->
  exists f,
    nth_error files (length (fst (contents_until_error files))) = Some f /\
    (forall raw, state f <> Readable raw) /\
    last (map name (firstn (S (length (fst (contents_until_error files)))) files)) []
    = name f.
Proof.
  induction files as [|e files IH]; [discriminate|].
  cbn [contents_until_error]. destruct (state e) as [raw| |] eqn:He.
  - destruct (contents_until_error files) as [cs y]. cbn [fst snd length] in *.
    intros H. destruct (IH H) as (f & Hn & Hs & Hl). exists f.
    split; [exact Hn|]. split; [exact Hs|].
    destruct files as [|e' files']; [destruct cs; discriminate Hn|].
    cbn [firstn map last] in *. exact Hl.
  - intros _. exists e. cbn [fst length nth_error firstn map last].
    repeat split. intros raw. congruence.
  - intros _. exists e. cbn [fst length nth_error firstn map last].
    repeat split. intros raw. congruence.
Qed.

End Announcements.

(** X16. Every file is named on the output before it is opened, the
    files are taken in the order of the listing, and after a file that
    cannot be read no other file is touched: when the engine does not
    fail, the names printed are those of the files that were read and of
    the one that failed, so that the last name printed is the name of
    the file that ended the run. *)
Theorem files_are_named_in_order unicode_decimal fs batch_size d :
  let w := snd (parse_and_import_data_with unicode_decimal fs no_faults batch_size
                  (initial_world d)) in
  let n := length (fst (contents_until_error (selected fs))) in
  processing_names (stdout w) = map name (firstn (S n) (selected fs)) /\
  (forall e, snd (contents_until_error (selected fs)) = Some e ->
     exists f, nth_error (selected fs) n = Some f /\
               (forall raw, state f <> Readable raw) /\
               last (processing_names (stdout w)) [] = name f) /\
  (all_readable fs -> processing_names (stdout w) = map name (selected fs)).
Proof.
  intros w n.
  assert (H : processing_names (stdout w) = map name (firstn (S n) (selected fs))).
  { unfold w, n. rewrite run_stdout. unfold expected_stdout.
    rewrite !processing_names_app.
    assert (E1 : processing_names [MsgConnecting; MsgSchemaCreated] = []) by reflexivity.
    assert (E2 : processing_names match glob (data_dir fs) with
                                  | [] => [MsgNoFilesInDataDir]
                                  | _ :: _ => []
                                  end = []) by now destruct (glob (data_dir fs)).
    rewrite E1, E2. cbn [app].
    destruct (selected fs) as [|e files] eqn:Hsel; [reflexivity|].
    rewrite processing_names_app, processing_names_file_lines.
    rewrite <- app_nil_r. f_equal.
    destruct (snd (contents_until_error (e :: files))) as [[]|]; reflexivity. }
  split; [exact H|]. split.
  - intros e He. destruct (contents_until_error_some _ _ He) as (f & Hn & Hs & Hl).
    exists f. rewrite H. auto.
  - intros Hall. rewrite H. unfold n.
    rewrite (contents_until_error_none _ Hall). f_equal.
    apply firstn_all2. lia.
Qed.

(** ** Concrete runs, continued *)

Lemma primary_key_stays_unique_witness :
  NoDup (map uid (rows_of db_seven)) /\
  let w := snd (parse_and_import_data_with ascii_only fs_two_lines fail_first_batch 1
                  (initial_world db_seven)) in
  NoDup (map uid (rows_of (disk w))) /\
  length (rows_of db_seven) <= length (rows_of (disk w)).
Proof.
  assert (H : NoDup (map uid (rows_of db_seven))).
  { simpl. constructor; [intros [] | constructor]. }
  split; [exact H|].
  exact (primary_key_stays_unique ascii_only fs_two_lines 1 fail_first_batch db_seven H).
Defined.

Lemma no_uid_is_lost_witness :
  has_uid (text_of_string "7") (rows_of db_seven) = true /\
  has_uid (text_of_string "7")
    (rows_of (disk (snd (parse_and_import_data_with ascii_only fs_two_lines
                           fail_first_batch 1 (initial_world db_seven))))) = true /\
  (has_uid (text_of_string "7") (all_records ascii_only fs_two_lines) = false ->
   filter (same_uid (text_of_string "7")) (rows_of (ingest ascii_only fs_two_lines 1 db_seven))
   = filter (same_uid (text_of_string "7")) (rows_of db_seven)).
Proof.
  split; [reflexivity|].
  exact (no_uid_is_lost ascii_only fs_two_lines 1 fail_first_batch db_seven
           (text_of_string "7") eq_refl).
Defined.

Lemma imported_rows_are_digit_strings_witness :
  In (text_9001, text_5551234) (rows_of (ingest ascii_only fs_one_line BATCH_SIZE db_seven)) /\
  (In (text_9001, text_5551234) (rows_of db_seven) \/
   (digits ascii_only text_9001 /\ digits ascii_only text_5551234 /\
    exists content,
      In content (fst (contents_until_error (selected fs_one_line))) /\
      In (text_5551234, text_9001) (findall ascii_only content))).
Proof.
  assert (H : In (text_9001, text_5551234)
                 (rows_of (ingest ascii_only fs_one_line BATCH_SIZE db_seven))).
  { vm_compute. right. left. reflexivity. }
  split; [exact H|].
  exact (imported_rows_are_digit_strings ascii_only fs_one_line BATCH_SIZE db_seven
           (text_9001, text_5551234) H).
Defined.

Lemma findall_line_by_line_witness :
  is_digit ascii_only LF = false /\ LF <> HYPHEN /\
  (forall s1 s2,
      findall ascii_only (s1 ++ LF :: s2) = findall ascii_only s1 ++ findall ascii_only s2) /\
  (forall lines,
      findall ascii_only (concat (map (fun l => l ++ [LF]) lines)) =
      concat (map (findall ascii_only) lines)).
Proof.
  assert (H : LF <> HYPHEN) by discriminate.
  split; [reflexivity|]. split; [exact H|].
  exact (findall_line_by_line ascii_only LF eq_refl H).
Defined.

Lemma setup_database_keeps_rows_witness :
  conn fresh_connection = Connected None /\
  let '(r, w') := setup_database no_faults fresh_connection in
  rows_of (disk w') = rows_of (disk fresh_connection) /\
  (r = Ok tt ->
   disk w' = Some {| rows := rows_of (disk fresh_connection); indexed := true |} /\
   conn w' = Connected None /\
   stdout w' = stdout fresh_connection ++ [MsgSchemaCreated]) /\
  (r <> Ok tt -> r = Raise SqliteError /\ stdout w' = stdout fresh_connection) /\
  (forall t, disk fresh_connection = Some t -> indexed t = true ->
             disk w' = disk fresh_connection).
Proof.
  split; [reflexivity|].
  exact (setup_database_keeps_rows no_faults fresh_connection eq_refl).
Defined.

Lemma reported_total_counts_matches_witness :
  all_readable fs_two_lines /\ selected fs_two_lines <> [] /\
  let w := snd (parse_and_import_data_with ascii_only fs_two_lines no_faults BATCH_SIZE
                  (initial_world None)) in
  let total := length (concat (map (findall ascii_only)
                                   (fst (contents_until_error (selected fs_two_lines))))) in
  last (stdout w) MsgConnecting = MsgImportComplete (Z.of_nat total) /\
  length (rows_of (disk w)) <= length (rows_of None) + total.
Proof.
  assert (H : selected fs_two_lines <> []) by (vm_compute; discriminate).
  split; [reflexivity|]. split; [exact H|].
  exact (reported_total_counts_matches ascii_only fs_two_lines BATCH_SIZE None eq_refl H).
Defined.

Lemma progress_lines_are_the_full_batches_witness :
  (0 < 1)%Z /\
  let w := snd (parse_and_import_data_with ascii_only fs_two_lines no_faults 1
                  (initial_world None)) in
  (In (MsgImportedSoFar 2) (stdout w) <->
   (0 < 2 <= Z.of_nat (length (all_records ascii_only fs_two_lines)))%Z /\
   (2 mod 1 = 0)%Z).
Proof.
  split; [reflexivity|].
  exact (progress_lines_are_the_full_batches ascii_only fs_two_lines 1 None 2 eq_refl).
Defined.

Lemma vanished_file_is_reported_as_missing_directory_witness :
  snd (contents_until_error (selected fs_vanished)) = Some FileNotFoundError /\
  let '(r, w) := parse_and_import_data_with ascii_only fs_vanished no_faults BATCH_SIZE
                   (initial_world None) in
  r = Raise (SystemExit 1) /\
  last (stdout w) MsgConnecting = MsgDirectoryNotFound /\
  (exists e, In e (selected fs_vanished) /\ state e = Dangling) /\
  (data_dir fs_vanished <> None \/ cwd fs_vanished <> None).
Proof.
  split; [reflexivity|].
  exact (vanished_file_is_reported_as_missing_directory ascii_only fs_vanished BATCH_SIZE
           None eq_refl).
Defined.

Lemma aborted_run_loses_less_than_a_batch_witness :
  (0 < BATCH_SIZE)%Z /\
  snd (contents_until_error (selected fs_unreadable)) = Some OtherOSError /\
  let recs := all_records ascii_only fs_unreadable in
  exists k,
    k <= length recs /\
    (Z.of_nat k mod BATCH_SIZE = 0)%Z /\
    (Z.of_nat (length recs - k) < BATCH_SIZE)%Z /\
    rows_of (ingest ascii_only fs_unreadable BATCH_SIZE None)
    = upsert_all (rows_of None) (firstn k recs).
Proof.
  split; [reflexivity|]. split; [reflexivity|].
  exact (aborted_run_loses_less_than_a_batch ascii_only fs_unreadable BATCH_SIZE None
           OtherOSError eq_refl eq_refl).
Defined.

Lemma rerun_after_failure_witness :
  all_readable fs_two_lines /\
  let w := snd (parse_and_import_data_with ascii_only fs_two_lines fail_first_batch 1
                  (initial_world db_seven)) in
  ingest ascii_only fs_two_lines 1 (disk w) = ingest ascii_only fs_two_lines 1 db_seven.
Proof.
  split; [reflexivity|].
  exact (rerun_after_failure ascii_only fs_two_lines fail_first_batch 1 db_seven eq_refl).
Defined.

Lemma undecodable_bytes_do_not_abort_witness :
  (forall e, In e (selected fs_undecodable) -> exists raw, state e = Readable raw) /\
  let '(r, w) := parse_and_import_data_with ascii_only fs_undecodable no_faults BATCH_SIZE
                   (initial_world None) in
  r = Ok tt /\
  (forall e raw m,
      In e (selected fs_undecodable) -> state e = Readable raw ->
      In m (findall ascii_only (read_text raw)) ->
      In (snd m, fst m) (sent (oplog w)) /\
      has_uid (snd m) (rows_of (disk w)) = true) /\
  (forall pre b post,
      ascii_bytes pre -> invalid_start b = true ->
      Utf8.decode_ignore (pre ++ b :: post) = pre ++ Utf8.decode_ignore post) /\
  (forall e raw t m,
      In e (selected fs_undecodable) -> state e = Readable raw ->
      Utf8Spec.decoded raw t -> In m (findall ascii_only t) ->
      In (snd m, fst m) (sent (oplog w)) /\
      has_uid (snd m) (rows_of (disk w)) = true) /\
  (forall e s m,
      In e (selected fs_undecodable) -> state e = Readable (Utf8Spec.encode_text s) ->
      Forall Utf8Spec.scalar_value s -> In m (findall ascii_only s) ->
      In (snd m, fst m) (sent (oplog w)) /\
      has_uid (snd m) (rows_of (disk w)) = true) /\
  (forall raw t, Utf8.decode_ignore raw = t <-> Utf8Spec.decoded raw t) /\
  (forall s, Forall Utf8Spec.scalar_value s ->
             Utf8.decode_ignore (Utf8Spec.encode_text s) = s).
Proof.
  assert (H : forall e, In e (selected fs_undecodable) -> exists raw, state e = Readable raw).
  { intros e [<- | [<- | []]]; eexists; reflexivity. }
  split; [exact H|].
  exact (undecodable_bytes_do_not_abort ascii_only fs_undecodable BATCH_SIZE None H).
Defined.

(** What is read from the file of [fs_undecodable] whose bytes are not
    UTF-8, and from bytes that encode U+00E9, U+4E2D and U+1F600 around
    a lone continuation byte. *)
Example undecodable_file_text :
  read_text ([0xFF; 0xC3] ++ text_of_string "77----88" ++ [0xE2; 0x82])%N
  = text_of_string "77----88" /\
  Utf8.decode_ignore [0xC3; 0xA9; 0x80; 0xE4; 0xB8; 0xAD; 0xF0; 0x9F; 0x98; 0x80]%N
  = [0xE9; 0x4E2D; 0x1F600]%N /\
  Utf8Spec.encode_text [0xE9; 0x4E2D; 0x1F600]%N
  = [0xC3; 0xA9; 0xE4; 0xB8; 0xAD; 0xF0; 0x9F; 0x98; 0x80]%N.
Proof. repeat split. Qed.
